(** * Serialize: markups over a text, manipulated like a string

    A shallow embedding of [src/serialize.js] (lucthev/serialize) and the
    properties its documentation states about it.

    Numbers are integers ([Z]); a JavaScript string is the list of its
    UTF-16 code units; an object that a method mutates and returns is a
    value passed in and handed back.  What the browser does with a name
    that is not ASCII is left open: the definitions and theorems that go
    through [document.createElement] hold for whatever it does. *)

From Stdlib Require Import ZArith List Lia Bool String Ascii.
From stdpp Require Import base tactics option list sorting.
Import ListNotations.
Open Scope Z_scope.

(** ** Strings *)

(** A JavaScript string: its UTF-16 code units. *)
Definition jsstring : Type := list N.

(** An ASCII literal as a JavaScript string. *)
Definition str (s : string) : jsstring :=
  map N_of_ascii (list_ascii_of_string s).

(** [s.length] *)
Definition strlen (t : jsstring) : Z := Z.of_nat (List.length t).

(** [String.prototype.substr(start, length)] for integer arguments. *)
Definition js_substr (t : jsstring) (from len : Z) : jsstring :=
  let from := if from <? 0 then Z.max (strlen t + from) 0 else from in
  take (Z.to_nat len) (drop (Z.to_nat from) t).

(** A code unit below 128. *)
Definition is_ascii (c : N) : bool := (c <? 128)%N.

(** [toLowerCase] on one ASCII code unit: [A]-[Z] become [a]-[z]. *)
Definition ascii_lower (c : N) : N :=
  if ((65 <=? c) && (c <=? 90))%N then (c + 32)%N else c.

(** Stand-ins for the browser in the examples, which use ASCII names
    only: nothing to do for other names, and a name is taken for an
    element name if it begins with an ASCII letter. *)
Definition no_other_names (tag : jsstring) : jsstring := tag.

Definition begins_with_letter (tag : jsstring) : bool :=
  match tag with
  | c :: _ => ((65 <=? c) && (c <=? 90) || (97 <=? c) && (c <=? 122))%N
  | [] => false
  end.

(** ** Markups and serializations *)

(** A markup object [{type, start, end}] with an optional [href] key. *)
Record Markup : Type := mkMarkup {
  type : Z;
  start : Z;
  end_ : Z;
  href : option jsstring
}.

(** The object a [Serialize] instance is.  [s_length] is a field of its
    own: only the setter of [text] keeps it equal to the text's length. *)
Record Serialize : Type := mkSerialize {
  s_type : jsstring;
  text : jsstring;
  s_length : Z;
  markups : list Markup
}.

(** The setter of the [text] property (serialize.js, lines 35-38). *)
Definition set_text (s : Serialize) (newText : jsstring) : Serialize :=
  {| s_type := s_type s; text := newText;
     s_length := strlen newText; markups := markups s |}.

Definition set_markups (s : Serialize) (ms : list Markup) : Serialize :=
  {| s_type := s_type s; text := text s;
     s_length := s_length s; markups := ms |}.

Section DOM.

(** What the code asks of the browser and of the language, beyond ASCII:
    [toLowerCase_other] is [document.createElement(tag).nodeName.toLowerCase()]
    for a tag with a code unit that is not ASCII, where the Unicode
    tables decide; [element_name] tells whether [document.createElement]
    accepts a tag given by the caller, or throws. *)
Variable toLowerCase_other : jsstring -> jsstring.
Variable element_name : jsstring -> bool.

(** [document.createElement(tag).nodeName.toLowerCase()] (line 26): the
    node name of an element is its tag, in upper case in an HTML
    document, and for an ASCII tag [toLowerCase] turns every letter of it
    into lower case. *)
Definition nodeName_toLowerCase (tag : jsstring) : jsstring :=
  if forallb is_ascii tag then map ascii_lower tag else toLowerCase_other tag.

(** Modelled from the spec: [./convert], which is not part of the source,
    finds nothing to record in an element without children, so that
    [new Serialize(document.createElement(tag))] (lines 15-42) leaves the
    values of lines 22-26: the type is the lower-cased node name
    (line 26), the text is empty and there are no markups.  The type of a
    serialization is taken to be a name [createElement] accepts, [substr]
    and [append] having no error of their own. *)
Definition Serialize_new (tag : jsstring) : Serialize :=
  {| s_type := nodeName_toLowerCase tag; text := []; s_length := 0; markups := [] |}.

Arguments nodeName_toLowerCase : simpl never.

(** ** addMarkup (serialize.js, lines 72-97) *)

(** [while (markups[i] && cond(markups[i])) i += 1], where [rest] is the
    part of the array from index [i] on. *)
Fixpoint advance (cond : Markup -> bool) (rest : list Markup) (i : nat) : nat :=
  match rest with
  | m :: tl => if cond m then advance cond tl (S i) else i
  | [] => i
  end.

Definition while_at (cond : Markup -> bool) (ms : list Markup) (i : nat) : nat :=
  advance cond (drop i ms) i.

(** [array.splice(i, del, ...ins)] for [i] within the array. *)
Definition splice {A} (l : list A) (i del : nat) (ins : list A) : list A :=
  take i l ++ ins ++ drop (i + del) l.

Definition addMarkup_list (toAdd : Markup) (ms : list Markup) : list Markup :=
  let i := while_at (fun m => type toAdd >? type m) ms 0 in
  let i := while_at (fun m => (type toAdd =? type m) &&
                              (start toAdd >? start m)) ms i in
  let i := while_at (fun m => (type toAdd =? type m) &&
                              (start toAdd =? start m) &&
                              (end_ toAdd >? end_ m)) ms i in
  splice ms i 0 [toAdd].

Definition addMarkup (s : Serialize) (toAdd : Markup) : Serialize :=
  set_markups s (addMarkup_list toAdd (markups s)).

(** [addMarkups] on an array (lines 58-61). *)
Definition addMarkups (s : Serialize) (toAdd : list Markup) : Serialize :=
  fold_left addMarkup toAdd s.

(** The states after each call of a sequence of [addMarkup] calls. *)
Fixpoint addMarkup_trace (s : Serialize) (calls : list Markup) : list Serialize :=
  match calls with
  | [] => []
  | m :: tl => addMarkup s m :: addMarkup_trace (addMarkup s m) tl
  end.

(** The order of the documentation: by type, then start, then end. *)
Definition key_le (a b : Markup) : Prop :=
  type a < type b \/
  (type a = type b /\ (start a < start b \/
                       (start a = start b /\ end_ a <= end_ b))).

Definition key_lt (a b : Markup) : Prop :=
  type a < type b \/
  (type a = type b /\ (start a < start b \/
                       (start a = start b /\ end_ a < end_ b))).

Definition sorted (ms : list Markup) : Prop := Sorted key_le ms.

(** [key_le] as a test. *)
Definition key_leb (a b : Markup) : bool :=
  (type a <? type b) ||
  ((type a =? type b) &&
   ((start a <? start b) || ((start a =? start b) && (end_ a <=? end_ b)))).

(** ** mergeAdjacent (serialize.js, lines 104-108) *)

(** Modelled from the spec: the test of section 4.3 for two same-type
    markups whose ranges touch or overlap, [next.start <= previous.end]. *)
Definition mergeable (previous next : Markup) : bool :=
  (type next =? type previous) && (start next <=? end_ previous).

(** Modelled from the spec: the single markup of section 4.3 spanning
    [[min(start), max(end)]]; its [href] is that of either one. *)
Definition fuse (previous next : Markup) : Markup :=
  {| type := type previous;
     start := Z.min (start previous) (start next);
     end_ := Z.max (end_ previous) (end_ next);
     href := match href previous with
             | Some h => Some h
             | None => href next
             end |}.

(** Modelled from the spec: the single left-to-right pass of section 4.3;
    [previous] stands for the run of mergeable entries read so far. *)
Fixpoint merge_from (previous : Markup) (rest : list Markup) : list Markup :=
  match rest with
  | [] => [previous]
  | next :: tl =>
      if mergeable previous next
      then merge_from (fuse previous next) tl
      else previous :: merge_from next tl
  end.

(** Modelled from the spec: [require('./adjacent')], which is not part of
    the source.  Section 4.3 of the spec: same-type markups whose ranges
    touch or overlap ([next.start <= previous.end]) are merged into one
    markup spanning [[min(start), max(end)]], keeping the [href] of
    either, in a single left-to-right pass over the sorted list that
    replaces each run of mergeable entries by one representative. *)
Definition mergeAdjacent_list (ms : list Markup) : list Markup :=
  match ms with
  | [] => []
  | m :: tl => merge_from m tl
  end.

Definition mergeAdjacent (s : Serialize) : Serialize :=
  set_markups s (mergeAdjacent_list (markups s)).

(** ** removeMarkup (serialize.js, lines 119-174) *)

Definition set_start (m : Markup) (v : Z) : Markup :=
  {| type := type m; start := v; end_ := end_ m; href := href m |}.

Definition set_end (m : Markup) (v : Z) : Markup :=
  {| type := type m; start := start m; end_ := v; href := href m |}.

(** The body of the [for] loop, read on the part of the array from the
    current index on.  A [splice(i, 1)] followed by [i -= 1] and the
    loop's [i += 1] goes on with the element that followed the removed
    one, so each element is visited once, in order; [break] and [return]
    leave the rest of the array as it is. *)
Fixpoint removeMarkup_from (toRemove : Markup) (rest : list Markup) : list Markup :=
  match rest with
  | [] => []
  | markup :: tl =>
      if type markup >? type toRemove then rest
      else if negb (type markup =? type toRemove)
      then markup :: removeMarkup_from toRemove tl
      else if (start markup <=? start toRemove) && (end_ markup >=? end_ toRemove)
      then
        let before := {| type := type markup; start := start markup;
                         end_ := start toRemove; href := href markup |} in
        let after := {| type := type markup; start := end_ toRemove;
                        end_ := end_ markup; href := href markup |} in
        if negb (start after =? end_ after) && negb (start before =? end_ before)
        then before :: after :: tl
        else if negb (start before =? end_ before) then before :: tl
        else if negb (start after =? end_ after) then after :: tl
        else tl
      else
        let markup :=
          if (start markup >=? start toRemove) && (start markup <? end_ toRemove)
          then set_start markup (end_ toRemove) else markup in
        let markup :=
          if (end_ markup >? start toRemove) && (end_ markup <=? end_ toRemove)
          then set_end markup (start toRemove) else markup in
        if end_ markup <=? start markup
        then removeMarkup_from toRemove tl
        else markup :: removeMarkup_from toRemove tl
  end.

Definition removeMarkup (s : Serialize) (toRemove : Markup) : Serialize :=
  set_markups s (removeMarkup_from toRemove (markups s)).

(** [m] overlaps the half-open range [[lo, hi)]. *)
Definition overlaps (m : Markup) (lo hi : Z) : Prop :=
  start m < hi /\ lo < end_ m.

(** ** substr (serialize.js, lines 197-235) *)

(** [while (start < 0) start = this.length + start].  [None] when the
    fuel runs out. *)
Fixpoint wrap_start (fuel : nat) (len from : Z) : option Z :=
  if from <? 0
  then match fuel with
       | O => None
       | S fuel => wrap_start fuel len (len + from)
       end
  else Some from.

(** The copy made of a markup that intersects [[from, upto)]. *)
Definition rebase (from upto : Z) (markup : Markup) : Markup :=
  {| type := type markup;
     start := if start markup >? from then start markup - from else 0;
     end_ := if end_ markup <? upto then end_ markup - from else upto - from;
     href := href markup |}.

(** Lines 210-234: what [substr] does once [start] is not negative. *)
Definition substr_at (s : Serialize) (from : Z) (length : option Z) : Serialize :=
  let length :=
    match length with
    | None => s_length s - from
    | Some l => if from + l >? s_length s then s_length s - from else l
    end in
  let upto := from + length in
  let substr := set_text (Serialize_new (s_type s)) (js_substr (text s) from length) in
  fold_left
    (fun substr markup =>
       if (start markup <? upto) && (end_ markup >? from)
       then addMarkup substr (rebase from upto markup)
       else substr)
    (markups s) substr.

(** [substr(start, length)]; [length = None] is an omitted argument.
    With a positive [this.length] the loop needs at most [-start] rounds;
    with a negative one it cannot end, and the result is [None]. *)
Definition substr (s : Serialize) (from : Z) (length : option Z) : option Serialize :=
  if (s_length s =? 0) || (match length with Some l => l <=? 0 | None => false end)
  then Some (Serialize_new (s_type s))
  else
    match wrap_start (Z.to_nat (- from)) (s_length s) from with
    | None => None
    | Some from => Some (substr_at s from length)
    end.

(** ** append (serialize.js, lines 275-334) *)

(** What [append] may be given: nothing, a string, or a serialization. *)
Inductive Appended : Type :=
  | Absent
  | Str (toAdd : jsstring)
  | Ser (toAdd : Serialize).

Definition copy_markup (markup : Markup) : Markup :=
  {| type := type markup; start := start markup;
     end_ := end_ markup; href := href markup |}.

Definition copy_shifted (by_ : Z) (markup : Markup) : Markup :=
  {| type := type markup; start := start markup + by_;
     end_ := end_ markup + by_; href := href markup |}.

Definition append (s : Serialize) (toAdd : Appended) : option Serialize :=
  match toAdd with
  | Absent | Str [] => substr s 0 None
  | Str toAdd =>
      match substr s 0 None with
      | None => None
      | Some serialization =>
          let ms :=
            map (fun markup =>
                   if end_ markup =? s_length serialization
                   then set_end markup (end_ markup + strlen toAdd)
                   else markup)
                (markups serialization) in
          let serialization := set_markups serialization ms in
          Some (set_text serialization (text serialization ++ toAdd))
      end
  | Ser toAdd =>
      let serialization :=
        set_text (Serialize_new (s_type s)) (text s ++ text toAdd) in
      let serialization :=
        fold_left (fun acc markup => addMarkup acc (copy_markup markup))
                  (markups s) serialization in
      let serialization :=
        fold_left (fun acc markup => addMarkup acc (copy_shifted (s_length s) markup))
                  (markups toAdd) serialization in
      Some (mergeAdjacent serialization)
  end.

(** ** equals (serialize.js, lines 344-369) *)

Inductive key : Type := Ktype | Kstart | Kend | Khref.

Inductive value : Type :=
  | VNum (n : Z)
  | VStr (t : jsstring).

(** [Object.keys(markup)] *)
Definition Object_keys (m : Markup) : list key :=
  [Ktype; Kstart; Kend] ++
  match href m with Some _ => [Khref] | None => [] end.

(** [markup[k]]; [None] is [undefined]. *)
Definition get (m : Markup) (k : key) : option value :=
  match k with
  | Ktype => Some (VNum (type m))
  | Kstart => Some (VNum (start m))
  | Kend => Some (VNum (end_ m))
  | Khref => VStr <$> href m
  end.

Definition jsstring_eqb (a b : jsstring) : bool := bool_decide (a = b).

(** [a !== b] is [negb (strict_eqb a b)]. *)
Definition strict_eqb (a b : option value) : bool :=
  match a, b with
  | None, None => true
  | Some (VNum x), Some (VNum y) => x =? y
  | Some (VStr x), Some (VStr y) => jsstring_eqb x y
  | _, _ => false
  end.

(** The loop over the markups, both arrays having the same length. *)
Fixpoint equal_markups (mine others : list Markup) : bool :=
  match mine, others with
  | markup :: tl, otherMarkup :: tl' =>
      if negb (List.length (Object_keys markup) =? List.length (Object_keys otherMarkup))%nat
      then false
      else if negb (forallb (fun k => strict_eqb (get markup k) (get otherMarkup k))
                            (Object_keys markup))
      then false
      else equal_markups tl tl'
  | _, _ => true
  end.

Definition equals (s other : Serialize) : bool :=
  if negb (jsstring_eqb (s_type s) (s_type other)) ||
     negb (jsstring_eqb (text s) (text other)) ||
     negb (List.length (markups s) =? List.length (markups other))%nat
  then false
  else equal_markups (markups s) (markups other).

(** ** Notions used in the statements *)

(** [addMarkup] called with each entry of [l] in turn. *)
Definition insert_all (l acc : list Markup) : list Markup :=
  fold_left (fun acc m => addMarkup_list m acc) l acc.

(** The test of line 220 of [substr]. *)
Definition intersects (from upto : Z) (markup : Markup) : bool :=
  (start markup <? upto) && (end_ markup >? from).

(** A markup within a text of the given length. *)
Definition in_range (len : Z) (m : Markup) : Prop :=
  0 <= start m /\ start m < end_ m /\ end_ m <= len.

(** A markup that ended at the old length now ends at the new one. *)
Definition extend (oldLength newLength : Z) (markup : Markup) : Markup :=
  if end_ markup =? oldLength then set_end markup newLength else markup.

(** Neighbours that a merge pass leaves apart. *)
Definition apart (a b : Markup) : Prop := mergeable a b = false.

(** Within one type, starts do not decrease. *)
Definition starts_le (a b : Markup) : Prop :=
  type a = type b -> start a <= start b.

(** [a] lies wholly before [b]: a lower type, or the same type and a gap
    between the two ranges. *)
Definition before (a b : Markup) : Prop :=
  type a < type b \/ (type a = type b /\ end_ a < start b).

(** [s.substr(0, k).append(s.substr(k)).equals(s)] *)
Definition split_and_rejoin (s : Serialize) (k : Z) : option bool :=
  match substr s 0 (Some k), substr s k None with
  | Some head, Some tail =>
      match append head (Ser tail) with
      | Some whole => Some (equals whole s)
      | None => None
      end
  | _, _ => None
  end.

(** What the two halves of a split at [k] hand to [append] for one markup
    of a text of length [len]. *)
Definition pieces (k len : Z) (m : Markup) : list Markup :=
  map copy_markup (map (rebase 0 k) (List.filter (intersects 0 k) [m])) ++
  map (copy_shifted k) (map (rebase k len) (List.filter (intersects k len) [m])).

(** ** replace (serialize.js, line 187) *)

(** Modelled from the spec: whether the text begins with the matched
    characters; the pattern of scenario 2, [/\.\.\./], matches the
    literal string ["..."]. *)
Fixpoint starts_with (pattern t : jsstring) : bool :=
  match pattern, t with
  | [], _ => true
  | p :: ps, c :: cs => (p =? c)%N && starts_with ps cs
  | _ :: _, [] => false
  end.

(** Modelled from the spec: the index of the first match of a literal
    pattern, looked for from index [i] on. *)
Fixpoint find_from (pattern t : jsstring) (i : nat) : option nat :=
  if starts_with pattern t then Some i
  else match t with
       | [] => None
       | _ :: cs => find_from pattern cs (S i)
       end.

(** Modelled from the spec: a position at or after [matchEnd] is shifted
    by the change in length (section 4.4). *)
Definition shift_after (matchEnd delta p : Z) : Z :=
  if matchEnd <=? p then p + delta else p.

(** Modelled from the spec: what one match does to one markup (section
    4.4).  A markup inside the match is dropped; one that ends inside it
    has its end pulled back to [matchStart]; one that starts inside it has
    its start pushed to [matchEnd]; then positions at or after [matchEnd]
    are shifted. *)
Definition replace_markup (matchStart matchEnd delta : Z) (m : Markup) : option Markup :=
  if (matchStart <=? start m) && (end_ m <=? matchEnd) then None
  else
    let m := if (start m <? matchStart) && (matchStart <? end_ m) &&
                (end_ m <=? matchEnd)
             then set_end m matchStart else m in
    let m := if (matchStart <=? start m) && (start m <? matchEnd) &&
                (matchEnd <? end_ m)
             then set_start m matchEnd else m in
    Some {| type := type m;
            start := shift_after matchEnd delta (start m);
            end_ := shift_after matchEnd delta (end_ m);
            href := href m |}.

(** Modelled from the spec: [require('./replace')], which is not part of
    the source.  Section 4.4 of the spec for a pattern that matches a
    literal string once (no [g] flag) and a replacement given as a string:
    a new serialization whose text has the first match replaced and whose
    markups are re-based around the match. *)
Definition replace (s : Serialize) (pattern substitution : jsstring) : Serialize :=
  match find_from pattern (text s) 0 with
  | None =>
      set_markups (set_text (Serialize_new (s_type s)) (text s))
                  (map copy_markup (markups s))
  | Some i =>
      let matchStart := Z.of_nat i in
      let matchEnd := matchStart + strlen pattern in
      let delta := strlen substitution - (matchEnd - matchStart) in
      let newText := take i (text s) ++ substitution ++
                     drop (i + List.length pattern) (text s) in
      set_markups (set_text (Serialize_new (s_type s)) newText)
                  (omap (replace_markup matchStart matchEnd delta) (markups s))
  end.

(** ** fromJSON (serialize.js, lines 427-439) *)

(** What [JSON.parse] returns.  Numbers are kept as integers: of a number
    the code only asks whether it is zero. *)
#[warnings="-register-all"] Inductive json : Type :=
  | JNull
  | JBool (b : bool)
  | JNum (n : Z)
  | JStr (t : jsstring)
  | JArr (items : list json)
  | JObj (fields : list (jsstring * json)).

(** The binding of a key in a parsed object: the last one written wins. *)
Fixpoint last_binding (fields : list (jsstring * json)) (name : jsstring) : option json :=
  match fields with
  | [] => None
  | (k, v) :: tl =>
      match last_binding tl name with
      | Some v' => Some v'
      | None => if jsstring_eqb k name then Some v else None
      end
  end.

(** [result.name] for one of the names the code reads; [None] is
    [undefined].  (On [null] the access itself throws, see [fromJSON].) *)
Definition field (result : json) (name : jsstring) : option json :=
  match result with
  | JObj fields => last_binding fields name
  | _ => None
  end.

(** [!v] is [negb (truthy v)]. *)
Definition truthy (v : option json) : bool :=
  match v with
  | None | Some JNull | Some (JBool false) | Some (JNum 0) | Some (JStr []) => false
  | Some _ => true
  end.

(** The instance [fromJSON] hands back: [type] and [markups] are whatever
    values the payload holds. *)
Record Revived : Type := mkRevived {
  r_type : json;
  r_text : jsstring;
  r_length : Z;
  r_markups : json
}.

Inductive outcome (A : Type) : Type :=
  | Returned (a : A)
  | Thrown.
Arguments Returned {A} a.
Arguments Thrown {A}.

(** [typeof v === 'string'] *)
Definition is_string (v : option json) : bool :=
  match v with
  | Some (JStr _) => true
  | _ => false
  end.

(** [fromJSON], from the value [JSON.parse(json)] on.  Reading a property
    of [null] throws; a value that is not an object has neither property. *)
Definition fromJSON (result : json) : outcome Revived :=
  match result with
  | JNull => Thrown
  | _ =>
      if negb (is_string (field result (str "text"))) ||
         negb (truthy (field result (str "type")))
      then Thrown
      else
        match field result (str "text"), field result (str "type") with
        | Some (JStr t), Some ty =>
            Returned {| r_type := ty; r_text := t; r_length := strlen t;
                        r_markups :=
                          if truthy (field result (str "markups"))
                          then default (JArr []) (field result (str "markups"))
                          else JArr [] |}
        | _, _ => Thrown
        end
  end.

(** ** The scenarios of the documentation *)

(** Scenario 1 and the README: [<p>Some <b>bold</b> and <em>italic</em> text</p>]. *)
Definition bold_and_italic (bold italic : Z) : Serialize :=
  {| s_type := str "p"; text := str "Some bold and italic text"; s_length := 25;
     markups := [mkMarkup bold 5 9 None; mkMarkup italic 14 20 None] |}.

(** Scenario 2 and the README: [<p>One..<em>. two</em></p>]. *)
Definition one_two (italic : Z) : Serialize :=
  {| s_type := str "p"; text := str "One... two"; s_length := 10;
     markups := [mkMarkup italic 5 10 None] |}.

(** The character U+2026, one code unit. *)
Definition ellipsis : jsstring := [8230%N].

(** Scenario 3 and the README: [<p><em>1</em><strong>2</strong></p>]. *)
Definition one_and_two (bold italic : Z) : Serialize :=
  {| s_type := str "p"; text := str "12"; s_length := 2;
     markups := [mkMarkup bold 1 2 None; mkMarkup italic 0 1 None] |}.

(** Two same-type markups, the second inside the first. *)
Definition nested (bold : Z) : Serialize :=
  {| s_type := str "p"; text := str "0123456789"; s_length := 10;
     markups := [mkMarkup bold 0 10 None; mkMarkup bold 2 8 None] |}.

(** Two same-type markups that touch. *)
Definition touching (bold : Z) : Serialize :=
  {| s_type := str "p"; text := str "abcd"; s_length := 4;
     markups := [mkMarkup bold 0 2 None; mkMarkup bold 2 4 None] |}.

(** Two links over the same character. *)
Definition two_links (link : Z) : Serialize :=
  {| s_type := str "p"; text := str "ab"; s_length := 2;
     markups := [mkMarkup link 0 1 (Some (str "a"));
                 mkMarkup link 0 1 (Some (str "b"))] |}.

(** A serialization with the type "H1", as [fromJSON] makes it of a
    payload with that type. *)
Definition heading : Serialize :=
  {| s_type := str "H1"; text := str "ab"; s_length := 2; markups := [] |}.

(** A markup that runs past the end of the text. *)
Definition overlong (bold : Z) : Serialize :=
  {| s_type := str "p"; text := str "12"; s_length := 2;
     markups := [mkMarkup bold 1 7 None] |}.

(** The same-type markups of a list do not overlap one another, and the
    list is in the order of the types. *)
Definition disjoint_order (a b : Markup) : Prop :=
  type a < type b \/ (type a = type b /\ end_ a <= start b).

(** ** substring (serialize.js, lines 245-261) *)

(** [substring(start, end)]; [upto = None] is an omitted [end]. *)
Definition substring (s : Serialize) (from : Z) (upto : option Z) : option Serialize :=
  let '(from, upto) :=
    match upto with
    | Some e => if e <? from then (e, Some from) else (from, Some e)
    | None => (from, None)
    end in
  let from := if from <? 0 then 0 else from in
  let upto :=
    match upto with
    | Some e => Some (if e <? 0 then 0 else e)
    | None => None
    end in
  let upto :=
    match upto with
    | Some e => e
    | None => s_length s
    end in
  substr s from (Some (upto - from)).

(** ** fromText (serialize.js, lines 412-417) *)

(** [tag || 'p']: an omitted tag ([None]) and an empty one give ['p']. *)
Definition tag_or_p (tag : option jsstring) : jsstring :=
  match tag with
  | Some (c :: cs) => c :: cs
  | _ => str "p"
  end.

(** [fromText(text, tag)].  [None] when [document.createElement] throws,
    the tag not being an element name. *)
Definition fromText (t : jsstring) (tag : option jsstring) : option Serialize :=
  if element_name (tag_or_p tag)
  then Some (set_text (Serialize_new (tag_or_p tag)) t)
  else None.

(** ** Further notions used in the statements *)

(** The position [p] lies in the range of [m]. *)
Definition covers (m : Markup) (p : Z) : Prop := start m <= p < end_ m.

(** Some markup of type [ty] covers the position [p]. *)
Definition covered (ty p : Z) (ms : list Markup) : Prop :=
  Exists (fun m => type m = ty /\ covers m p) ms.

(** [x] has the type of [m] and a range inside that of [m]. *)
Definition within (x m : Markup) : Prop :=
  type x = type m /\ start m <= start x /\ end_ x <= end_ m.

(** A list in the order of the types whose markups are not empty and,
    within one type, do not overlap. *)
Definition tidy (ms : list Markup) : Prop :=
  StronglySorted disjoint_order ms /\ Forall (fun m => start m < end_ m) ms.

(** The text [append] adds. *)
Definition text_of (toAdd : Appended) : jsstring :=
  match toAdd with
  | Absent => []
  | Str t => t
  | Ser other => text other
  end.

(** A markup cut to [[from, upto)] and counted from [from]. *)
Definition clip (from upto : Z) (m : Markup) : Markup :=
  {| type := type m;
     start := Z.max (start m) from - from;
     end_ := Z.min (end_ m) upto - from;
     href := href m |}.

(** * Properties *)

(** ** The order of the markups *)

#[global] Instance key_le_trans : Transitive key_le.
Proof. intros a b c; unfold key_le; lia. Qed.

Lemma key_lt_le a b : key_lt a b -> key_le a b.
Proof. unfold key_lt, key_le; lia. Qed.

Lemma key_le_starts_le a b : key_le a b -> starts_le a b.
Proof. unfold key_le, starts_le. lia. Qed.

Lemma sorted_strongly ms : sorted ms <-> StronglySorted key_le ms.
Proof.
  split; [apply Sorted_StronglySorted; apply _ | apply StronglySorted_Sorted].
Qed.

Lemma key_lt_sorted ms : StronglySorted key_lt ms -> sorted ms.
Proof.
  intros H. apply sorted_strongly.
  induction H; constructor; auto.
  eapply Forall_impl; [eassumption|]. intros; by apply key_lt_le.
Qed.

Lemma key_leb_le a b : key_leb a b = true <-> key_le a b.
Proof.
  unfold key_leb.
  rewrite orb_true_iff, !andb_true_iff, orb_true_iff, andb_true_iff.
  rewrite !Z.ltb_lt, !Z.eqb_eq, Z.leb_le. unfold key_le. lia.
Qed.

#[global] Instance key_le_dec : RelDecision key_le.
Proof.
  intros a b. destruct (key_leb a b) eqn:E.
  - left. by apply key_leb_le.
  - right. intros H%key_leb_le. congruence.
Defined.

(** Sortedness of a list written out in full, by running the test. *)
Ltac sorted_by_computation :=
  unfold sorted; simpl;
  repeat (apply Sorted_cons || apply Sorted_nil || apply HdRel_cons || apply HdRel_nil);
  try (apply key_leb_le; reflexivity).

Ltac in_range_by_computation :=
  simpl;
  repeat (apply Forall_cons; split; [unfold in_range; simpl; lia|]);
  by apply Forall_nil.

Lemma ascending_same_key l x y :
  StronglySorted key_lt l -> x ∈ l -> y ∈ l ->
  key_le x y -> key_le y x -> x = y.
Proof.
  induction 1 as [|a l Hs IH Ha]; intros Hx Hy Hxy Hyx.
  - by apply elem_of_nil in Hx.
  - rewrite Forall_forall in Ha.
    apply elem_of_cons in Hx as [->|Hx]; apply elem_of_cons in Hy as [->|Hy]; auto.
    + specialize (Ha _ Hy). unfold key_lt, key_le in *. lia.
    + specialize (Ha _ Hx). unfold key_lt, key_le in *. lia.
Qed.

(** ** addMarkup *)

(** What a [while] loop of [addMarkup] leaves behind: the entries it
    stepped over satisfy the condition, and on a run where the condition,
    once false, stays false, no later entry satisfies it. *)
Lemma advance_split (cond : Markup -> bool) (P : Markup -> Prop) rest i :
  (forall y z, P y -> P z -> key_le y z -> cond y = false -> cond z = false) ->
  Forall P rest -> StronglySorted key_le rest ->
  exists pre post,
    rest = pre ++ post /\ advance cond rest i = (i + List.length pre)%nat /\
    Forall (fun m => cond m = true) pre /\
    Forall (fun m => cond m = false) post.
Proof.
  intros Hmono. revert i.
  induction rest as [|m tl IH]; intros i HP Hs; simpl.
  - exists [], []. simpl. repeat split; auto with lia.
  - apply Forall_cons in HP as [Hm HP].
    apply StronglySorted_cons in Hs as [Hle Hs].
    destruct (cond m) eqn:E.
    + destruct (IH (S i) HP Hs) as (pre & post & -> & Hi & Hpre & Hpost).
      exists (m :: pre), post. simpl. repeat split; auto with lia.
    + exists [], (m :: tl). simpl. repeat split; auto with lia.
      constructor; [exact E|].
      rewrite Forall_forall in Hle, HP |- *.
      intros z Hz. apply (Hmono m z); auto.
Qed.

Lemma while_at_app cond (l rest : list Markup) :
  while_at cond (l ++ rest) (List.length l) = advance cond rest (List.length l).
Proof. unfold while_at. by rewrite drop_app_length. Qed.

Lemma splice_insert_app {A} (l rest : list A) x :
  splice (l ++ rest) (List.length l) 0 [x] = l ++ x :: rest.
Proof.
  unfold splice. rewrite Nat.add_0_r, take_app_length, drop_app_length. done.
Qed.

(** The place [addMarkup] picks in a sorted array. *)
Lemma addMarkup_list_split toAdd ms :
  sorted ms ->
  exists below above,
    ms = below ++ above /\
    addMarkup_list toAdd ms = below ++ toAdd :: above /\
    Forall (fun m => key_lt m toAdd) below /\
    Forall (fun m => key_le toAdd m) above.
Proof.
  intros Hs%sorted_strongly. unfold addMarkup_list.
  destruct (advance_split (fun m => type toAdd >? type m) (fun _ => True) ms 0%nat)
    as (A & r1 & -> & H1 & HA & Hr1); auto.
  { intros y z _ _ Hyz. rewrite !Z.gtb_ltb, !Z.ltb_ge. unfold key_le in Hyz. lia. }
  { apply Forall_true; auto. }
  change (while_at (fun m => type toAdd >? type m) (A ++ r1) 0)
    with (advance (fun m => type toAdd >? type m) (A ++ r1) 0).
  rewrite H1. simpl.
  pose proof (StronglySorted_app_1_r _ _ _ Hs) as Hs1.
  destruct (advance_split
              (fun m => (type toAdd =? type m) && (start toAdd >? start m))
              (fun m => type toAdd <= type m) r1 (List.length A))
    as (B & r2 & -> & H2 & HB & Hr2); auto.
  { intros y z Hy Hz Hyz. rewrite !andb_false_iff, !Z.eqb_neq, !Z.gtb_ltb, !Z.ltb_ge.
    unfold key_le in Hyz. lia. }
  { eapply Forall_impl; [exact Hr1|]. intros m. simpl. rewrite Z.gtb_ltb, Z.ltb_ge. lia. }
  rewrite while_at_app, H2.
  pose proof (StronglySorted_app_1_r _ _ _ Hs1) as Hs2.
  apply Forall_app in Hr1 as [_ Hr1].
  assert (Hr12 : Forall (fun m => type toAdd < type m \/
                           (type toAdd = type m /\ start toAdd <= start m)) r2).
  { rewrite Forall_forall in Hr1, Hr2 |- *. intros m Hm.
    specialize (Hr1 m Hm). specialize (Hr2 m Hm). simpl in *.
    rewrite Z.gtb_ltb, Z.ltb_ge in Hr1.
    rewrite andb_false_iff, Z.eqb_neq, Z.gtb_ltb, Z.ltb_ge in Hr2. lia. }
  destruct (advance_split
              (fun m => (type toAdd =? type m) && (start toAdd =? start m) &&
                        (end_ toAdd >? end_ m))
              (fun m => type toAdd < type m \/
                        (type toAdd = type m /\ start toAdd <= start m))
              r2 (List.length A + List.length B))
    as (C & D & -> & H3 & HC & HD); auto.
  { intros y z Hy Hz Hyz.
    rewrite !andb_false_iff, !Z.eqb_neq, !Z.gtb_ltb, !Z.ltb_ge.
    unfold key_le in Hyz. lia. }
  replace (List.length A + List.length B)%nat with (List.length (A ++ B)) in * by apply length_app.
  rewrite (app_assoc A B), while_at_app, H3.
  replace (List.length (A ++ B) + List.length C)%nat with (List.length ((A ++ B) ++ C))
    by (rewrite !length_app; lia).
  rewrite (app_assoc (A ++ B) C), splice_insert_app.
  exists ((A ++ B) ++ C), D. repeat split; auto.
  - rewrite !Forall_app. repeat split.
    + eapply Forall_impl; [exact HA|]. intros m. simpl.
      rewrite Z.gtb_ltb, Z.ltb_lt. unfold key_lt. lia.
    + eapply Forall_impl; [exact HB|]. intros m. simpl.
      rewrite andb_true_iff, Z.eqb_eq, Z.gtb_ltb, Z.ltb_lt. unfold key_lt. lia.
    + eapply Forall_impl; [exact HC|]. intros m. simpl.
      rewrite !andb_true_iff, !Z.eqb_eq, Z.gtb_ltb, Z.ltb_lt. unfold key_lt. lia.
  - apply Forall_app in Hr12 as [_ Hr12].
    rewrite Forall_forall in Hr12, HD |- *. intros m Hm.
    specialize (Hr12 m Hm). specialize (HD m Hm). simpl in *.
    rewrite !andb_false_iff, !Z.eqb_neq, Z.gtb_ltb, Z.ltb_ge in HD.
    unfold key_le. lia.
Qed.

Lemma addMarkup_list_sorted toAdd ms :
  sorted ms -> sorted (addMarkup_list toAdd ms).
Proof.
  intros Hs.
  destruct (addMarkup_list_split toAdd ms Hs) as (below & above & -> & -> & Hb & Ha).
  apply sorted_strongly in Hs. apply sorted_strongly.
  apply StronglySorted_app in Hs as (Hba & Hsb & Hsa).
  apply StronglySorted_app_2; auto.
  - intros x1 x2 Hx1 Hx2. rewrite Forall_forall in Hb, Ha.
    apply elem_of_cons in Hx2 as [->|Hx2].
    + apply key_lt_le; auto.
    + etrans; [apply key_lt_le, Hb, Hx1 | apply Ha, Hx2].
  - apply StronglySorted_cons; auto.
Qed.

Lemma addMarkup_list_perm toAdd ms : addMarkup_list toAdd ms ≡ₚ toAdd :: ms.
Proof.
  unfold addMarkup_list, splice.
  set (i := while_at _ ms _). clearbody i.
  rewrite Nat.add_0_r. simpl.
  rewrite <- Permutation_middle. by rewrite take_drop.
Qed.

(** A markup above all the others goes last. *)
Lemma addMarkup_list_last m l :
  sorted l -> Forall (fun x => key_lt x m) l -> addMarkup_list m l = l ++ [m].
Proof.
  intros Hs Hl.
  destruct (addMarkup_list_split m l Hs) as (below & above & -> & -> & _ & Ha).
  destruct above as [|y above]; [by rewrite app_nil_r|].
  apply Forall_app in Hl as [_ Hl].
  apply Forall_cons in Hl as [Hy _]. apply Forall_cons in Ha as [Hy' _].
  unfold key_lt, key_le in *. lia.
Qed.

(** *** Repeated insertion *)

Lemma insert_all_ascending l : forall acc,
  StronglySorted key_lt (acc ++ l) -> insert_all l acc = acc ++ l.
Proof.
  induction l as [|m l IH]; intros acc Hs; simpl.
  - by rewrite app_nil_r.
  - unfold insert_all in *. simpl.
    rewrite addMarkup_list_last.
    + rewrite IH; rewrite <- app_assoc; done.
    + apply key_lt_sorted. by apply StronglySorted_app_1_l in Hs.
    + apply StronglySorted_app in Hs as (Hc & _ & _).
      apply Forall_forall. intros x Hx. apply Hc; [done | by left].
Qed.

Lemma insert_all_perm l : forall acc, insert_all l acc ≡ₚ acc ++ l.
Proof.
  induction l as [|m l IH]; intros acc; simpl.
  - by rewrite app_nil_r.
  - unfold insert_all in *. simpl. rewrite IH, addMarkup_list_perm.
    by rewrite <- Permutation_middle.
Qed.

Lemma insert_all_sorted l : forall acc, sorted acc -> sorted (insert_all l acc).
Proof.
  induction l as [|m l IH]; intros acc Hs; simpl; [done|].
  apply IH. by apply addMarkup_list_sorted.
Qed.

Lemma insert_loop (g : Markup -> Markup) ms : forall acc,
  fold_left (fun acc markup => addMarkup acc (g markup)) ms acc =
  set_markups acc (insert_all (map g ms) (markups acc)).
Proof.
  induction ms as [|m ms IH]; intros acc; simpl.
  - by destruct acc.
  - rewrite IH. by destruct acc.
Qed.

(** C2. Sort invariant: starting from a serialization whose markups are
    sorted by (type, start, end), an empty list among them, the markups
    are sorted again after every call of any sequence of [addMarkup]
    calls, and so after [addMarkups]. *)
Theorem addMarkup_keeps_sorted s calls :
  sorted (markups s) ->
  Forall (fun s' => sorted (markups s')) (addMarkup_trace s calls) /\
  sorted (markups (addMarkups s calls)).
Proof.
  revert s. induction calls as [|m calls IH]; intros s Hs; simpl.
  - split; [constructor | done].
  - assert (Hs' : sorted (markups (addMarkup s m))).
    { simpl. by apply addMarkup_list_sorted. }
    destruct (IH _ Hs') as [Ht Hend]. split; [by constructor | exact Hend].
Qed.

(** ** mergeAdjacent *)

(** A list whose neighbours are apart is left as it is. *)
Lemma merge_from_fixed rest : forall p,
  Sorted apart (p :: rest) -> merge_from p rest = p :: rest.
Proof.
  induction rest as [|next tl IH]; intros p Hs; simpl; [done|].
  apply Sorted_inv in Hs as [Hs Hhd]. apply HdRel_inv in Hhd.
  unfold apart in Hhd. rewrite Hhd. f_equal. by apply IH.
Qed.

Lemma merge_from_settled rest : forall p,
  StronglySorted starts_le (p :: rest) ->
  Sorted apart (merge_from p rest) /\
  exists q tl, merge_from p rest = q :: tl /\ type q = type p /\ start q = start p.
Proof.
  induction rest as [|next tl IH]; intros p Hs; simpl.
  - split; [repeat constructor | by exists p, []].
  - apply StronglySorted_cons in Hs as [Hp Hs].
    pose proof Hp as Hp'. apply Forall_cons in Hp' as [Hpn Hptl].
    destruct (mergeable p next) eqn:E.
    + unfold mergeable in E. apply andb_true_iff in E as [Et%Z.eqb_eq El%Z.leb_le].
      assert (Hmin : Z.min (start p) (start next) = start p).
      { unfold starts_le in Hpn. lia. }
      destruct (IH (fuse p next)) as (H1 & q & tl' & Hq & Hq1 & Hq2).
      { apply StronglySorted_cons. apply StronglySorted_cons in Hs as [_ Hs].
        split; [|done].
        eapply Forall_impl; [exact Hptl|]. intros x Hx. unfold starts_le in *.
        simpl. lia. }
      split; [done|]. exists q, tl'. simpl in *. repeat split; auto with lia.
      all: lia.
    + destruct (IH next Hs) as (H1 & q & tl' & Hq & Hq1 & Hq2).
      rewrite Hq in *. split.
      * constructor; [done|]. constructor. unfold apart, mergeable in *.
        by rewrite Hq1, Hq2.
      * by exists p, (q :: tl').
Qed.

Lemma mergeAdjacent_list_idempotent ms :
  sorted ms ->
  mergeAdjacent_list (mergeAdjacent_list ms) = mergeAdjacent_list ms.
Proof.
  intros Hs%sorted_strongly. destruct ms as [|m tl]; [done|]. simpl.
  destruct (merge_from_settled tl m) as (H1 & q & tl' & Hq & _).
  { clear -Hs. induction Hs; constructor; auto.
    eapply Forall_impl; [eassumption|]. intros; by apply key_le_starts_le. }
  rewrite Hq in *. simpl. by apply merge_from_fixed.
Qed.

(** C7, as the model has it.  Merge idempotence: on a serialization whose
    markups are sorted by (type, start, end), the order [addMarkup]
    keeps, calling [mergeAdjacent] twice in succession gives the same
    markups, and the same serialization, as calling it once. *)
Theorem mergeAdjacent_idempotent s :
  sorted (markups s) ->
  mergeAdjacent (mergeAdjacent s) = mergeAdjacent s.
Proof.
  intros Hs. unfold mergeAdjacent, set_markups. simpl.
  by rewrite mergeAdjacent_list_idempotent.
Qed.

Lemma mergeAdjacent_idempotent_witness :
  mergeAdjacent (mergeAdjacent (touching 1)) = mergeAdjacent (touching 1).
Proof. apply mergeAdjacent_idempotent. sorted_by_computation. Defined.

(** C7 as stated fails in the model: [removeMarkup] leaves the list
    {bold,0,4}, {bold,5,10}, {bold,2,8}, which is not sorted; the first
    pass makes {bold,0,4}, {bold,2,10} of it and the second {bold,0,10}. *)
Lemma mergeAdjacent_twice_unsorted :
  markups (removeMarkup (nested 1) (mkMarkup 1 4 5 None)) =
    [mkMarkup 1 0 4 None; mkMarkup 1 5 10 None; mkMarkup 1 2 8 None] /\
  markups (mergeAdjacent (removeMarkup (nested 1) (mkMarkup 1 4 5 None))) =
    [mkMarkup 1 0 4 None; mkMarkup 1 2 10 None] /\
  markups (mergeAdjacent (mergeAdjacent
             (removeMarkup (nested 1) (mkMarkup 1 4 5 None)))) =
    [mkMarkup 1 0 10 None] /\
  mergeAdjacent (mergeAdjacent (removeMarkup (nested 1) (mkMarkup 1 4 5 None))) <>
  mergeAdjacent (removeMarkup (nested 1) (mkMarkup 1 4 5 None)).
Proof. repeat split; try reflexivity. vm_compute. discriminate. Qed.

(** *** A merged list is one whose neighbours are apart *)

Lemma merge_from_length rest : forall p,
  (length (merge_from p rest) <= S (length rest))%nat.
Proof.
  induction rest as [|n tl IH]; intros p; simpl; [lia|].
  destruct (mergeable p n); simpl.
  - specialize (IH (fuse p n)). lia.
  - specialize (IH n). lia.
Qed.

Lemma merge_fixed_apart ms :
  mergeAdjacent_list ms = ms -> Sorted apart ms.
Proof.
  destruct ms as [|m tl]; [constructor|]. simpl. revert m.
  induction tl as [|n tl IH]; intros m H; simpl in *.
  - repeat constructor.
  - destruct (mergeable m n) eqn:E.
    + pose proof (merge_from_length tl (fuse m n)) as Hl.
      rewrite H in Hl. simpl in Hl. lia.
    + injection H as H. constructor; [by apply IH|]. by constructor.
Qed.

Lemma sorted_apart_before len ms :
  sorted ms -> Sorted apart ms -> Forall (in_range len) ms ->
  StronglySorted before ms.
Proof.
  intros Hs%sorted_strongly Ha Hr.
  induction ms as [|a tl IH]; [constructor|].
  apply StronglySorted_cons in Hs as [Hle Hs].
  apply Sorted_inv in Ha as [Ha Hhd].
  apply Forall_cons in Hr as [Hra Hr].
  specialize (IH Hs Ha Hr). constructor; [done|].
  destruct tl as [|b tl]; [constructor|].
  apply HdRel_inv in Hhd. apply Forall_cons in Hle as [Hab _].
  apply StronglySorted_cons in IH as [Hb _].
  apply Forall_cons in Hr as [Hrb _].
  assert (Hbef : before a b).
  { unfold apart, mergeable in Hhd. apply andb_false_iff in Hhd.
    rewrite Z.eqb_neq, Z.leb_gt in Hhd. unfold key_le in Hab. unfold before. lia. }
  constructor; [done|].
  eapply Forall_impl; [exact Hb|]. intros x Hx.
  unfold before, in_range in *. lia.
Qed.

(** ** removeMarkup *)

Lemma gtb_same x : (x >? x) = false.
Proof. rewrite Z.gtb_ltb. apply Z.ltb_irrefl. Qed.

(** C4. Scenario 1: on the text "Some bold and italic text" with the
    markups {bold,5,9} and {italic,14,20}, [removeMarkup({bold,6,8})]
    leaves exactly the two bold markups {bold,5,6} and {bold,8,9}, the
    two non-empty pieces of the containing markup, and the italic markup
    as it was. *)
Theorem removeMarkup_scenario bold italic :
  removeMarkup (bold_and_italic bold italic) (mkMarkup bold 6 8 None) =
    set_markups (bold_and_italic bold italic)
      [mkMarkup bold 5 6 None; mkMarkup bold 8 9 None; mkMarkup italic 14 20 None].
Proof.
  unfold removeMarkup, bold_and_italic. simpl.
  by rewrite gtb_same, Z.eqb_refl.
Qed.

(** C1. Overlap clearance fails where same-type markups overlap one
    another: with {bold,0,10} and {bold,2,8} in the list,
    [removeMarkup({bold,4,5})] splits the first and returns, and
    {bold,2,8} still overlaps [[4, 5)]. *)
Theorem removeMarkup_nested_overlap bold :
  removeMarkup (nested bold) (mkMarkup bold 4 5 None) =
    set_markups (nested bold)
      [mkMarkup bold 0 4 None; mkMarkup bold 5 10 None; mkMarkup bold 2 8 None] /\
  mkMarkup bold 2 8 None ∈ markups (removeMarkup (nested bold) (mkMarkup bold 4 5 None)) /\
  overlaps (mkMarkup bold 2 8 None) 4 5.
Proof.
  assert (E : removeMarkup (nested bold) (mkMarkup bold 4 5 None) =
              set_markups (nested bold)
                [mkMarkup bold 0 4 None; mkMarkup bold 5 10 None;
                 mkMarkup bold 2 8 None]).
  { unfold removeMarkup, nested. simpl. by rewrite gtb_same, Z.eqb_refl. }
  split; [exact E|]. split; [|unfold overlaps; simpl; lia].
  rewrite E. simpl. apply list_elem_of_In. simpl. auto.
Qed.

(** The cases of the two clamping tests of lines 162-165. *)
Ltac clamp_cases toRemove m IH :=
  rewrite !Z.gtb_ltb;
  destruct (Z.geb_spec (start m) (start toRemove)),
           (Z.ltb_spec (start m) (end_ toRemove)); simpl;
  rewrite ?Z.gtb_ltb;
  destruct (Z.ltb_spec (start toRemove) (end_ m)),
           (Z.leb_spec (end_ m) (end_ toRemove)); simpl;
  repeat match goal with
         | |- context [?a <=? ?b] => destruct (Z.leb_spec a b)
         end;
  try exact IH; try (constructor; [unfold overlaps; simpl; lia | exact IH]).

(** Where no two same-type markups overlap one another, the range is cleared. *)
Lemma removeMarkup_clears_disjoint toRemove ms :
  StronglySorted disjoint_order ms ->
  Forall (fun m => type m = type toRemove ->
                   ~ overlaps m (start toRemove) (end_ toRemove))
         (removeMarkup_from toRemove ms).
Proof.
  induction 1 as [|m tl Hs IH Hm]; simpl; [constructor|].
  rewrite Z.gtb_ltb.
  destruct (Z.ltb_spec (type toRemove) (type m)) as [Hgt|Hle].
  { constructor; [lia|].
    eapply Forall_impl; [exact Hm|]. intros x Hx. unfold disjoint_order in Hx. lia. }
  destruct (Z.eqb_spec (type m) (type toRemove)) as [Heq|Hne]; simpl.
  2:{ constructor; [lia | exact IH]. }
  assert (Htl : Forall (fun x => type x = type toRemove -> end_ m <= start x) tl).
  { eapply Forall_impl; [exact Hm|]. intros x Hx. unfold disjoint_order in Hx. lia. }
  destruct (Z.leb_spec (start m) (start toRemove)) as [Hs1|Hs1];
    destruct (Z.geb_spec (end_ m) (end_ toRemove)) as [He1|He1]; simpl.
  - assert (Hrest : Forall (fun x => type x = type toRemove ->
                       ~ overlaps x (start toRemove) (end_ toRemove)) tl).
    { eapply Forall_impl; [exact Htl|]. intros x Hx Ht. specialize (Hx Ht).
      unfold overlaps. lia. }
    destruct (Z.eqb_spec (end_ toRemove) (end_ m)),
             (Z.eqb_spec (start m) (start toRemove)); simpl;
      repeat (constructor; [unfold overlaps; simpl; lia|]); exact Hrest.
  - clamp_cases toRemove m IH.
  - clamp_cases toRemove m IH.
  - clamp_cases toRemove m IH.
Qed.

(** ** substr *)

(** *** The loop on a negative start *)

Lemma wrap_start_rounds fuel : forall len from,
  0 < len -> (Z.to_nat (- from) <= fuel)%nat ->
  exists n : nat,
    wrap_start fuel len from = Some (from + Z.of_nat n * len) /\
    (forall j : nat, (j < n)%nat -> from + Z.of_nat j * len < 0) /\
    0 <= from + Z.of_nat n * len.
Proof.
  induction fuel as [|fuel IH]; intros len from Hlen Hfuel; simpl.
  - destruct (Z.ltb_spec from 0); [lia|].
    exists 0%nat. repeat split; [f_equal; lia | lia | lia].
  - destruct (Z.ltb_spec from 0).
    + destruct (IH len (len + from) Hlen) as (n & Hn & Hmin & Hnn); [lia|].
      exists (S n). rewrite Hn. repeat split; [f_equal; lia | | lia].
      intros j Hj. destruct j as [|j]; [lia|].
      specialize (Hmin j ltac:(lia)). lia.
    + exists 0%nat. repeat split; [f_equal; lia | lia | lia].
Qed.

Lemma wrap_start_nonneg fuel len from :
  0 <= from -> wrap_start fuel len from = Some from.
Proof. intros H. destruct fuel; simpl; destruct (Z.ltb_spec from 0); auto; lia. Qed.

Lemma substr_nonneg s from length :
  0 <= from ->
  substr s from length =
    if (s_length s =? 0) || (match length with Some l => l <=? 0 | None => false end)
    then Some (Serialize_new (s_type s))
    else Some (substr_at s from length).
Proof. intros H. unfold substr. by rewrite wrap_start_nonneg. Qed.

Lemma substr_returns s from length :
  0 < s_length s -> exists r, substr s from length = Some r.
Proof.
  intros Hlen. unfold substr.
  destruct ((s_length s =? 0) || _); [eauto|].
  destruct (wrap_start_rounds (Z.to_nat (- from)) (s_length s) from Hlen)
    as (n & -> & _); [lia|]. eauto.
Qed.

(** With a positive length a negative start is replaced by the first of
    [start + length], [start + 2 * length], ... that is not negative. *)
Lemma substr_wraps s from length :
  0 < s_length s -> from < 0 ->
  exists (n : nat) (r : Serialize),
    (forall j : nat, (j < n)%nat -> from + Z.of_nat j * s_length s < 0) /\
    0 <= from + Z.of_nat n * s_length s /\
    substr s from length = Some r /\
    substr s (from + Z.of_nat n * s_length s) length = Some r.
Proof.
  intros Hlen Hneg.
  destruct (wrap_start_rounds (Z.to_nat (- from)) (s_length s) from Hlen)
    as (n & Hn & Hmin & Hnn); [lia|].
  destruct (substr_returns s from length Hlen) as [r Hr].
  exists n, r. repeat split; auto.
  rewrite <- Hr. rewrite (substr_nonneg s (from + _)) by done.
  unfold substr. by rewrite Hn.
Qed.

(** *** The markups of the result *)

(** The loop of [substr] over the markups. *)
Lemma substr_loop from upto ms : forall sub,
  fold_left
    (fun substr markup =>
       if (start markup <? upto) && (end_ markup >? from)
       then addMarkup substr (rebase from upto markup)
       else substr) ms sub =
  set_markups sub
    (insert_all (map (rebase from upto) (List.filter (intersects from upto) ms))
                (markups sub)).
Proof.
  induction ms as [|m ms IH]; intros sub; simpl.
  - by destruct sub.
  - rewrite IH. unfold intersects at 2.
    destruct ((start m <? upto) && (end_ m >? from)); simpl; [|done].
    by destruct sub.
Qed.

Lemma strlen_nonneg t : 0 <= strlen t.
Proof. unfold strlen. lia. Qed.

Lemma strlen_app a b : strlen (a ++ b) = strlen a + strlen b.
Proof. unfold strlen. rewrite length_app. lia. Qed.

Lemma strlen_js_substr t from len :
  0 <= from -> 0 <= len -> from + len <= strlen t ->
  strlen (js_substr t from len) = len.
Proof.
  intros Hf Hl Hle. unfold js_substr, strlen in *.
  destruct (Z.ltb_spec from 0); [lia|].
  rewrite length_take, length_drop. lia.
Qed.

(** The start [substr] works with is never negative. *)
Lemma wrap_start_result len from :
  0 < len ->
  exists r, wrap_start (Z.to_nat (- from)) len from = Some r /\ 0 <= r.
Proof.
  intros Hlen.
  destruct (wrap_start_rounds (Z.to_nat (- from)) len from Hlen) as (n & Hn & _ & Hr);
    [lia|].
  eauto.
Qed.

(** C10. If every markup of a serialization satisfies
    [0 <= start < end <= length], [length] being the length of the text,
    then for all arguments [substr(start, length)] returns a
    serialization whose markups all satisfy [0 <= start < end <= length]
    for its own length, which is the length of its text. *)
Theorem substr_markups_in_range s from length :
  s_length s = strlen (text s) ->
  Forall (in_range (s_length s)) (markups s) ->
  exists r,
    substr s from length = Some r /\
    Forall (in_range (s_length r)) (markups r) /\
    s_length r = strlen (text r).
Proof.
  intros Hlen Hms. unfold substr.
  destruct ((s_length s =? 0) ||
            match length with Some l => l <=? 0 | None => false end) eqn:E.
  { eexists; split; [done|]. simpl. split; [constructor | done]. }
  apply orb_false_iff in E as [E0%Z.eqb_neq El].
  pose proof (strlen_nonneg (text s)) as Hnn.
  destruct (wrap_start_result (s_length s) from) as (r0 & -> & Hr0); [lia|].
  eexists; split; [done|].
  unfold substr_at. rewrite substr_loop. simpl.
  set (len' := match length with
               | Some l => if r0 + l >? s_length s then s_length s - r0 else l
               | None => s_length s - r0
               end).
  assert (Hup : r0 + len' <= s_length s).
  { subst len'. destruct length as [l|]; [|lia].
    rewrite Z.gtb_ltb. destruct (Z.ltb_spec (s_length s) (r0 + l)); lia. }
  assert (Hpos : r0 < s_length s -> 0 < len').
  { subst len'. destruct length as [l|]; [|lia].
    apply Z.leb_gt in El.
    rewrite Z.gtb_ltb. destruct (Z.ltb_spec (s_length s) (r0 + l)); lia. }
  split; [|done].
  apply Forall_forall. intros x Hx.
  rewrite insert_all_perm in Hx. simpl in Hx.
  apply list_elem_of_In, in_map_iff in Hx as (m & <- & Hm).
  apply filter_In in Hm as [Hm Ht].
  rewrite Forall_forall in Hms. apply list_elem_of_In, Hms in Hm.
  unfold intersects in Ht.
  apply andb_true_iff in Ht as [Hs%Z.ltb_lt He%Z.gtb_lt].
  unfold in_range in *.
  rewrite strlen_js_substr by lia.
  unfold rebase; simpl. rewrite Z.gtb_ltb.
  destruct (Z.ltb_spec r0 (start m)), (Z.ltb_spec (end_ m) (r0 + len')); lia.
Qed.

(** *** A negative start *)

Lemma substr_at_text s k :
  s_length s = strlen (text s) -> 0 <= k <= s_length s ->
  text (substr_at s k None) = drop (Z.to_nat k) (text s) /\
  s_length (substr_at s k None) = s_length s - k.
Proof.
  intros Hlen Hk. unfold substr_at. rewrite substr_loop.
  cbn [text s_length set_markups set_text].
  assert (E : js_substr (text s) k (s_length s - k) = drop (Z.to_nat k) (text s)).
  { unfold js_substr. destruct (Z.ltb_spec k 0); [lia|].
    apply take_ge. rewrite length_drop. unfold strlen in Hlen. lia. }
  rewrite E. split; [done|]. unfold strlen in *. rewrite length_drop. lia.
Qed.

(** C5. With a positive length, [substr] called with a negative start
    and a length that is positive or left out works from the start index
    [k] got by adding the length to the start as often as the result is
    still negative, [n] times, and clamping that to 0 (which changes
    nothing, [k] lying within the text): it returns what lines 210-234
    make of [k], the same as [substr] called with [k], and without a
    length the text from index [k] on.  So [substr(-3)] on a text of 10
    characters returns what [substr(7)] returns, the last 3 characters. *)
Theorem substr_negative_start :
  (forall s from length,
      0 < s_length s -> from < 0 ->
      match length with Some l => 0 < l | None => True end ->
      exists n : nat,
        (forall j : nat, (j < n)%nat -> from + Z.of_nat j * s_length s < 0) /\
        0 <= from + Z.of_nat n * s_length s < s_length s /\
        substr s from length =
          Some (substr_at s (Z.max 0 (from + Z.of_nat n * s_length s)) length) /\
        substr s from length = substr s (from + Z.of_nat n * s_length s) length /\
        (s_length s = strlen (text s) ->
         exists r, substr s from None = Some r /\
                   text r = drop (Z.to_nat (from + Z.of_nat n * s_length s)) (text s))) /\
  (forall s length,
      s_length s = 10 ->
      substr s (-3) length = substr s 7 length /\
      (match length with Some l => 0 < l | None => True end ->
       substr s (-3) length = Some (substr_at s 7 length)) /\
      (s_length s = strlen (text s) ->
       exists r, substr s (-3) None = Some r /\ substr s 7 None = Some r /\
                 text r = drop 7 (text s) /\ s_length r = 3)).
Proof.
  assert (Hmain : forall s from length,
    0 < s_length s -> from < 0 ->
    exists n : nat,
      (forall j : nat, (j < n)%nat -> from + Z.of_nat j * s_length s < 0) /\
      0 <= from + Z.of_nat n * s_length s < s_length s /\
      (match length with Some l => 0 < l | None => True end ->
       substr s from length =
         Some (substr_at s (from + Z.of_nat n * s_length s) length)) /\
      substr s from length = substr s (from + Z.of_nat n * s_length s) length).
  { intros s from length Hlen Hneg.
    destruct (wrap_start_rounds (Z.to_nat (- from)) (s_length s) from Hlen)
      as (n & Hn & Hmin & Hnn); [lia|].
    exists n. split; [exact Hmin|]. split; [|split].
    - split; [done|]. destruct n as [|n]; [lia|].
      specialize (Hmin n ltac:(lia)). lia.
    - intros Hl. unfold substr. rewrite Hn.
      destruct (Z.eqb_spec (s_length s) 0); [lia|].
      destruct length as [l|]; cbn [orb]; [|done].
      by destruct (Z.leb_spec l 0); [lia|].
    - rewrite (substr_nonneg s (from + _)) by done.
      unfold substr. by rewrite Hn. }
  split.
  - intros s from length Hlen Hneg Hl.
    destruct (Hmain s from length Hlen Hneg) as (n & Hmin & Hk & Hat & Heq).
    exists n. rewrite Z.max_r by lia. repeat split; auto; try lia.
    intros Htext.
    destruct (Hmain s from None Hlen Hneg) as (n' & Hmin' & Hk' & Hat' & _).
    assert (n' = n) as ->.
    { destruct (Nat.lt_trichotomy n' n) as [H|[H|H]]; [|done|].
      - specialize (Hmin _ H). lia.
      - specialize (Hmin' _ H). lia. }
    eexists; split; [by apply Hat'|].
    apply substr_at_text; [done | lia].
  - intros s length H10.
    destruct (Hmain s (-3) length) as (n & Hmin & Hk & Hat & Heq); [lia..|].
    assert (Hn : -3 + Z.of_nat n * s_length s = 7).
    { rewrite H10 in *. destruct n as [|[|n]]; [lia | lia |].
      specialize (Hmin 1%nat ltac:(lia)). lia. }
    rewrite Hn in *. split; [exact Heq|]. split; [exact Hat|].
    intros Htext.
    destruct (Hmain s (-3) None) as (n' & Hmin' & Hk' & Hat' & Heq'); [lia..|].
    assert (Hn' : -3 + Z.of_nat n' * s_length s = 7).
    { rewrite H10 in *. destruct n' as [|[|n']]; [lia | lia |].
      specialize (Hmin' 1%nat ltac:(lia)). lia. }
    rewrite Hn' in *.
    exists (substr_at s 7 None). split; [by apply Hat'|].
    split; [by rewrite <- Heq'; apply Hat'|].
    destruct (substr_at_text s 7 Htext) as [Ht Hl]; [lia|].
    split; [exact Ht | lia].
Qed.

(** ** append with a string *)

(** [substr(0)] of a serialization in good order is a copy of it. *)
Lemma rebase_whole len m : in_range len m -> rebase 0 len m = m.
Proof.
  intros (H1 & H2 & H3). destruct m as [t b e h]. unfold rebase; simpl in *.
  rewrite Z.gtb_ltb.
  destruct (Z.ltb_spec 0 b), (Z.ltb_spec e len); f_equal; lia.
Qed.

Lemma filter_all {A} (f : A -> bool) l :
  Forall (fun x => f x = true) l -> List.filter f l = l.
Proof.
  induction 1 as [|x l Hx _ IH]; simpl; [done|]. by rewrite Hx, IH.
Qed.

Lemma map_same {A} (f : A -> A) l :
  Forall (fun x => f x = x) l -> map f l = l.
Proof.
  induction 1 as [|x l Hx _ IH]; simpl; [done|]. by rewrite Hx, IH.
Qed.

Lemma in_range_empty ms : Forall (in_range 0) ms -> ms = [].
Proof.
  destruct 1 as [|m ms Hm _]; [done|]. unfold in_range in Hm. lia.
Qed.

Lemma strlen_zero t : strlen t = 0 -> t = [].
Proof. destruct t; [done|]. unfold strlen. simpl. lia. Qed.

Lemma js_substr_whole t : js_substr t 0 (strlen t - 0) = t.
Proof.
  unfold js_substr, strlen. simpl. rewrite Z.sub_0_r, Nat2Z.id.
  rewrite drop_0. apply take_ge. lia.
Qed.

Lemma substr_whole s :
  s_length s = strlen (text s) ->
  Forall (in_range (s_length s)) (markups s) ->
  substr s 0 None =
    Some {| s_type := nodeName_toLowerCase (s_type s);
            text := text s;
            s_length := s_length s;
            markups := insert_all (markups s) [] |}.
Proof.
  intros Hlen Hms. rewrite substr_nonneg by lia. rewrite orb_false_r.
  destruct s as [ty tx len ms]; simpl in *.
  destruct (Z.eqb_spec len 0) as [E|E].
  - rewrite E in Hms. rewrite (in_range_empty ms Hms).
    rewrite E in Hlen. symmetry in Hlen. rewrite (strlen_zero tx Hlen). by subst.
  - f_equal. unfold substr_at. rewrite substr_loop. simpl.
    unfold set_markups, set_text; simpl. rewrite Hlen, js_substr_whole.
    rewrite Z.sub_0_r. f_equal.
    rewrite filter_all, map_same; [done | |].
    + eapply Forall_impl; [exact Hms|]. intros m Hm. apply rebase_whole. by rewrite <- Hlen.
    + eapply Forall_impl; [exact Hms|]. intros m (H1 & H2 & H3).
      unfold intersects. rewrite andb_true_iff, Z.ltb_lt, Z.gtb_lt. lia.
Qed.

Lemma extend_as_coded len added m :
  (if end_ m =? len then set_end m (end_ m + added) else m) =
  extend len (len + added) m.
Proof.
  unfold extend. destruct (Z.eqb_spec (end_ m) len) as [->|]; done.
Qed.

Lemma append_string_reinserted s toAdd :
  toAdd <> [] ->
  s_length s = strlen (text s) ->
  Forall (in_range (s_length s)) (markups s) ->
  append s (Str toAdd) =
    Some {| s_type := nodeName_toLowerCase (s_type s);
            text := text s ++ toAdd;
            s_length := s_length s + strlen toAdd;
            markups := map (extend (s_length s) (s_length s + strlen toAdd))
                           (insert_all (markups s) []) |}.
Proof.
  intros Hne Hlen Hms.
  unfold append. destruct toAdd as [|c toAdd]; [done|].
  rewrite substr_whole by done. f_equal.
  unfold set_text, set_markups; simpl.
  rewrite strlen_app, <- Hlen. f_equal.
  apply map_ext. intros m. apply extend_as_coded.
Qed.

Lemma append_string s toAdd :
  toAdd <> [] ->
  nodeName_toLowerCase (s_type s) = s_type s ->
  s_length s = strlen (text s) ->
  Forall (in_range (s_length s)) (markups s) ->
  StronglySorted key_lt (markups s) ->
  append s (Str toAdd) =
    Some {| s_type := s_type s;
            text := text s ++ toAdd;
            s_length := s_length s + strlen toAdd;
            markups := map (extend (s_length s) (s_length s + strlen toAdd))
                           (markups s) |}.
Proof.
  intros Hne Hty Hlen Hms Hs.
  rewrite append_string_reinserted by done.
  by rewrite insert_all_ascending, Hty.
Qed.

(** C6, as the code has it.  For a serialization whose type is a name the
    constructor gives back as it is (a lower-case element name), whose
    length is that of its text and whose markups satisfy
    [0 <= start < end <= length] and stand in strictly ascending
    (type, start, end) order, and a non-empty string, [append] returns a
    serialization of the same type whose text
    is the text followed by the string, in which exactly the markups that
    ended at the old length end at the new one and every other markup is
    unchanged, without a merge pass; so on "12" with {bold,1,2} and
    {italic,0,1}, [append("345")] gives {bold,1,5} and {italic,0,1}. *)
Theorem append_string_in_order :
  (forall s toAdd,
      toAdd <> [] ->
      nodeName_toLowerCase (s_type s) = s_type s ->
      s_length s = strlen (text s) ->
      Forall (in_range (s_length s)) (markups s) ->
      StronglySorted key_lt (markups s) ->
      append s (Str toAdd) =
        Some {| s_type := s_type s;
                text := text s ++ toAdd;
                s_length := s_length s + strlen toAdd;
                markups := map (extend (s_length s) (s_length s + strlen toAdd))
                               (markups s) |}) /\
  (forall bold italic,
      bold < italic ->
      append (one_and_two bold italic) (Str (str "345")) =
        Some {| s_type := str "p";
                text := str "12345";
                s_length := 5;
                markups := [mkMarkup bold 1 5 None; mkMarkup italic 0 1 None] |}).
Proof.
  split; [exact append_string|].
  intros bold italic Hlt.
  rewrite append_string.
  - reflexivity.
  - discriminate.
  - reflexivity.
  - reflexivity.
  - in_range_by_computation.
  - simpl. apply SSorted_cons; [apply SSorted_cons; [apply SSorted_nil | by apply Forall_nil]|].
    apply Forall_cons; split; [|by apply Forall_nil]. unfold key_lt. simpl. lia.
Qed.

(** ** Splitting and joining again *)

(** *** The two halves *)

Lemma no_markup_before_zero len ms :
  Forall (in_range len) ms -> List.filter (intersects 0 0) ms = [].
Proof.
  induction 1 as [|m ms Hm _ IH]; simpl; [done|].
  unfold intersects at 1. destruct (Z.ltb_spec (start m) 0); simpl; [|done].
  unfold in_range in Hm. lia.
Qed.

Lemma substr_left s k :
  s_length s = strlen (text s) ->
  Forall (in_range (s_length s)) (markups s) ->
  0 <= k <= s_length s ->
  exists l,
    substr s 0 (Some k) = Some l /\
    s_type l = nodeName_toLowerCase (s_type s) /\
    text l = take (Z.to_nat k) (text s) /\
    s_length l = k /\
    markups l ≡ₚ map (rebase 0 k) (List.filter (intersects 0 k) (markups s)).
Proof.
  intros Hlen Hms Hk. rewrite substr_nonneg by lia.
  destruct ((s_length s =? 0) || (k <=? 0)) eqn:E.
  - assert (k = 0) as ->.
    { apply orb_true_iff in E as [E%Z.eqb_eq|E%Z.leb_le]; lia. }
    eexists; split; [done|]. simpl.
    by rewrite (no_markup_before_zero _ _ Hms).
  - apply orb_false_iff in E as [E0%Z.eqb_neq El%Z.leb_gt].
    eexists; split; [done|].
    unfold substr_at. rewrite substr_loop. simpl.
    rewrite !Z.add_0_l, Z.gtb_ltb.
    destruct (Z.ltb_spec (s_length s) k) as [?|_]; [lia|].
    split; [done|]. split; [|split].
    + unfold js_substr. simpl. change (Z.to_nat 0) with 0%nat. by rewrite drop_0.
    + apply strlen_js_substr; lia.
    + by rewrite insert_all_perm.
Qed.

Lemma substr_right s k :
  s_length s = strlen (text s) ->
  Forall (in_range (s_length s)) (markups s) ->
  0 <= k <= s_length s ->
  exists r,
    substr s k None = Some r /\
    s_type r = nodeName_toLowerCase (s_type s) /\
    text r = drop (Z.to_nat k) (text s) /\
    markups r ≡ₚ map (rebase k (s_length s))
                    (List.filter (intersects k (s_length s)) (markups s)).
Proof.
  intros Hlen Hms Hk. rewrite substr_nonneg by lia. rewrite orb_false_r.
  destruct (Z.eqb_spec (s_length s) 0) as [E|E].
  - eexists; split; [done|]. simpl.
    rewrite E in Hms. rewrite (in_range_empty _ Hms).
    rewrite E in Hlen. symmetry in Hlen. rewrite (strlen_zero _ Hlen).
    by rewrite drop_nil.
  - eexists; split; [done|].
    unfold substr_at. rewrite substr_loop. simpl.
    replace (k + (s_length s - k)) with (s_length s) by lia.
    split; [done|]. split.
    + unfold js_substr. destruct (Z.ltb_spec k 0); [lia|].
      apply take_ge. rewrite length_drop. unfold strlen in Hlen. lia.
    + by rewrite insert_all_perm.
Qed.

(** *** The pieces of one markup *)

Section SplitAt.

(** The place of the split, in a text of length [len]. *)
Variables k len : Z.

Lemma pieces_cases m :
  in_range len m ->
  pieces k len m = [m] \/
  (start m < k < end_ m /\ pieces k len m = [set_end m k; set_start m k]).
Proof.
  intros (H1 & H2 & H3). destruct m as [t b e h]. simpl in *.
  unfold pieces, intersects, rebase, copy_markup, copy_shifted, set_end, set_start.
  simpl. rewrite !Z.gtb_ltb.
  destruct (Z.ltb_spec b k), (Z.ltb_spec 0 e), (Z.ltb_spec b len),
    (Z.ltb_spec k e); simpl; try lia; rewrite ?Z.gtb_ltb.
  - right. split; [lia|].
    destruct (Z.ltb_spec 0 b), (Z.ltb_spec e k), (Z.ltb_spec k b),
      (Z.ltb_spec e len); repeat f_equal; lia.
  - left. destruct (Z.ltb_spec 0 b), (Z.ltb_spec e k); repeat f_equal; lia.
  - left. destruct (Z.ltb_spec k b), (Z.ltb_spec e len); repeat f_equal; lia.
Qed.

Lemma pieces_elem m x :
  in_range len m -> x ∈ pieces k len m ->
  type x = type m /\ start m <= start x /\ start x < end_ m.
Proof.
  intros Hm Hx. pose proof Hm as (H1 & H2 & H3).
  destruct (pieces_cases m Hm) as [E|[Hin E]]; rewrite E in Hx.
  - apply list_elem_of_singleton in Hx as ->. lia.
  - apply elem_of_cons in Hx as [->|Hx]; [simpl; lia|].
    apply list_elem_of_singleton in Hx as ->. simpl. lia.
Qed.

Lemma fuse_pieces m :
  start m < k < end_ m -> fuse (set_end m k) (set_start m k) = m.
Proof.
  intros H. destruct m as [t b e h]. unfold fuse, set_end, set_start. simpl in *.
  f_equal; [lia | lia | by destruct h].
Qed.

Lemma pieces_ascending ms :
  Forall (in_range len) ms -> StronglySorted before ms ->
  StronglySorted key_lt (flat_map (pieces k len) ms).
Proof.
  intros Hr Hs. induction Hs as [|m tl Hs IH Hm]; simpl; [constructor|].
  apply Forall_cons in Hr as [Hrm Hr].
  apply StronglySorted_app_2; [| |by apply IH].
  - intros x1 x2 Hx1 Hx2.
    apply list_elem_of_In, in_flat_map in Hx2 as (m' & Hm' & Hx2).
    rewrite Forall_forall in Hm, Hr.
    apply list_elem_of_In in Hm'. pose proof (Hm _ Hm') as Hb.
    apply (pieces_elem m) in Hx1; [|done].
    apply list_elem_of_In, (pieces_elem m') in Hx2; [|by auto].
    unfold before, key_lt in *. lia.
  - destruct (pieces_cases m Hrm) as [E|[Hin E]]; rewrite E.
    + repeat constructor.
    + constructor; [repeat constructor|].
      constructor; [|constructor]. unfold key_lt. simpl. lia.
Qed.

Lemma pieces_merge tl : forall m,
  Forall (in_range len) (m :: tl) ->
  StronglySorted before (m :: tl) ->
  merge_from m (flat_map (pieces k len) tl) = m :: tl.
Proof.
  induction tl as [|n tl IH]; intros m Hr Hs; simpl; [done|].
  apply Forall_cons in Hr as [Hrm Hr]. pose proof Hr as Hr'.
  apply Forall_cons in Hr' as [Hrn _].
  apply StronglySorted_cons in Hs as [Hm Hs].
  apply Forall_cons in Hm as [Hmn _].
  assert (Hap : forall x, type x = type n -> start x = start n -> mergeable m x = false).
  { intros x Ht Hst. unfold mergeable. rewrite andb_false_iff, Z.eqb_neq, Z.leb_gt.
    unfold before in Hmn. lia. }
  destruct (pieces_cases n Hrn) as [E|[Hin E]]; rewrite E; simpl.
  - rewrite Hap by done. f_equal. by apply IH.
  - rewrite Hap by done. f_equal.
    assert (mergeable (set_end n k) (set_start n k) = true) as ->.
    { unfold mergeable. simpl. rewrite andb_true_iff, Z.eqb_eq, Z.leb_le. lia. }
    rewrite fuse_pieces by done. by apply IH.
Qed.

Lemma pieces_mergeAdjacent ms :
  Forall (in_range len) ms -> StronglySorted before ms ->
  mergeAdjacent_list (flat_map (pieces k len) ms) = ms.
Proof.
  intros Hr Hs. destruct ms as [|m tl]; [done|].
  pose proof Hr as Hr'. apply Forall_cons in Hr' as [Hrm _]. simpl.
  destruct (pieces_cases m Hrm) as [E|[Hin E]]; rewrite E; simpl.
  - by apply pieces_merge.
  - assert (mergeable (set_end m k) (set_start m k) = true) as ->.
    { unfold mergeable. simpl. rewrite andb_true_iff, Z.eqb_eq, Z.leb_le. lia. }
    rewrite fuse_pieces by done. by apply pieces_merge.
Qed.

Lemma pieces_perm ms :
  flat_map (pieces k len) ms ≡ₚ
  map copy_markup (map (rebase 0 k) (List.filter (intersects 0 k) ms)) ++
  map (copy_shifted k) (map (rebase k len) (List.filter (intersects k len) ms)).
Proof.
  induction ms as [|m ms IH]; simpl; [done|].
  rewrite IH. unfold pieces. simpl.
  destruct (intersects 0 k m), (intersects k len m); simpl;
    rewrite <- ?Permutation_middle; done.
Qed.

End SplitAt.

(** *** equals *)

Lemma strict_eqb_refl v : strict_eqb v v = true.
Proof.
  destruct v as [[n|t]|]; simpl; [apply Z.eqb_refl | | done].
  unfold jsstring_eqb. by apply bool_decide_eq_true.
Qed.

Lemma equal_markups_refl ms : equal_markups ms ms = true.
Proof.
  induction ms as [|m ms IH]; [done|].
  cbn [equal_markups]. rewrite Nat.eqb_refl. cbn [negb].
  assert (forallb (fun k => strict_eqb (get m k) (get m k)) (Object_keys m) = true) as ->.
  { apply forallb_forall. intros k _. apply strict_eqb_refl. }
  done.
Qed.

Lemma equals_same ty tx len len' ms :
  equals (mkSerialize ty tx len ms) (mkSerialize ty tx len' ms) = true.
Proof.
  unfold equals, jsstring_eqb. simpl.
  rewrite !bool_decide_eq_true_2 by done. rewrite Nat.eqb_refl. simpl.
  apply equal_markups_refl.
Qed.

(** C3, as the code has it.  Slice-append round trip: for a serialization
    whose type is a name the constructor gives back as it is (a
    lower-case element name), whose length is that of its text, whose
    markups satisfy [0 <= start < end <= length], are sorted by
    (type, start, end) and are left as they are by [mergeAdjacent], and
    for [0 <= k <= length],
    [s.substr(0, k).append(s.substr(k)).equals(s)] returns true. *)
Theorem split_and_rejoin_merged s k :
  nodeName_toLowerCase (s_type s) = s_type s ->
  s_length s = strlen (text s) ->
  Forall (in_range (s_length s)) (markups s) ->
  sorted (markups s) ->
  mergeAdjacent_list (markups s) = markups s ->
  0 <= k <= s_length s ->
  split_and_rejoin s k = Some true.
Proof.
  intros Hty Hlen Hr Hs Hmerged Hk. unfold split_and_rejoin.
  destruct (substr_left s k Hlen Hr Hk) as (l & -> & Hlt & Hlx & Hll & Hlm).
  destruct (substr_right s k Hlen Hr Hk) as (r & -> & Hrt & Hrx & Hrm).
  unfold append. rewrite !insert_loop. simpl. f_equal.
  set (X := insert_all _ (insert_all _ [])).
  pose proof (sorted_apart_before _ _ Hs (merge_fixed_apart _ Hmerged) Hr) as Hbef.
  pose proof (pieces_ascending k _ _ Hr Hbef) as Hasc.
  assert (HX : X = flat_map (pieces k (s_length s)) (markups s)).
  { apply (Sorted_unique_strong key_le).
    - intros x1 x2 Hx1 Hx2. apply (ascending_same_key _ _ _ Hasc); [|done].
      revert Hx1. subst X. rewrite !insert_all_perm. simpl.
      rewrite Hll, Hlm, Hrm. by rewrite <- pieces_perm.
    - subst X. apply insert_all_sorted, insert_all_sorted. constructor.
    - by apply key_lt_sorted.
    - subst X. rewrite !insert_all_perm. simpl.
      rewrite Hll, Hlm, Hrm. by rewrite <- pieces_perm. }
  clearbody X. subst X.
  unfold mergeAdjacent, set_markups, set_text. simpl.
  rewrite pieces_mergeAdjacent by done.
  rewrite Hlt, Hlx, Hrx, take_drop, !Hty.
  destruct s as [ty tx len ms]. apply equals_same.
Qed.

(** ** replace *)

(** C8. Scenario 2: on the text "One... two" with the markup
    {italic,5,10}, replacing the three periods by one ellipsis returns a
    serialization with the text "One… two", of length 8, whose only
    markup is {italic,4,8}: the positions at or after the end of the match
    are shifted by -2. *)
Theorem replace_scenario italic :
  replace (one_two italic) (str "...") ellipsis =
    {| s_type := str "p";
       text := str "One" ++ ellipsis ++ str " two";
       s_length := 8;
       markups := [mkMarkup italic 4 8 None] |}.
Proof. reflexivity. Qed.

(** ** fromJSON *)

Lemma truthy_false v :
  truthy v = false <->
  v = None \/ v = Some JNull \/ v = Some (JBool false) \/
  v = Some (JNum 0) \/ v = Some (JStr []).
Proof.
  split.
  - destruct v as [[|[]|[]|[]| |]|]; simpl; intros H; try discriminate; auto 6.
  - intros [->|[->|[->|[->| ->]]]]; reflexivity.
Qed.

(** C9, as the code has it.  [fromJSON] raises an error if and only if the
    payload's [text] is not a string or its [type] is missing, [null],
    [false], 0 or the empty string; otherwise it returns an instance whose
    text and type are the payload's, whose length is that of the text,
    and whose markups are the payload's, or the empty list when that
    field is absent (or is one of the values just listed). *)
Theorem fromJSON_raises result :
  (fromJSON result = Thrown <->
   is_string (field result (str "text")) = false \/
   field result (str "type") = None \/
   field result (str "type") = Some JNull \/
   field result (str "type") = Some (JBool false) \/
   field result (str "type") = Some (JNum 0) \/
   field result (str "type") = Some (JStr [])) /\
  (forall s,
      fromJSON result = Returned s ->
      field result (str "text") = Some (JStr (r_text s)) /\
      field result (str "type") = Some (r_type s) /\
      r_length s = strlen (r_text s) /\
      r_markups s =
        match field result (str "markups") with
        | None => JArr []
        | Some v => if truthy (Some v) then v else JArr []
        end).
Proof.
  rewrite <- truthy_false.
  set (tx := field result (str "text")) in *.
  set (ty := field result (str "type")) in *.
  assert (E : fromJSON result =
              if negb (is_string tx) || negb (truthy ty) then Thrown
              else match tx, ty with
                   | Some (JStr t), Some ty' =>
                       Returned {| r_type := ty'; r_text := t; r_length := strlen t;
                                   r_markups :=
                                     if truthy (field result (str "markups"))
                                     then default (JArr []) (field result (str "markups"))
                                     else JArr [] |}
                   | _, _ => Thrown
                   end).
  { by destruct result. }
  rewrite E. clear E.
  destruct tx as [[| | |t| |]|]; cbn [is_string negb orb];
    try (split; [split; auto | discriminate]).
  destruct (truthy ty) eqn:Ety; cbn [negb].
  - destruct ty as [ty'|]; [|discriminate].
    split; [split; [discriminate | intros [H|H]; discriminate]|].
    intros s [= <-]. cbn [r_text r_type r_length r_markups]. repeat split.
    destruct (field result (str "markups")) as [v|]; [|done].
    cbn [default]. by destruct (truthy (Some v)).
  - split; [split; auto | discriminate].
Qed.

Lemma fromJSON_raises_witness :
  field (JObj [(str "type", JStr (str "p")); (str "text", JStr (str "abc"))])
        (str "text") = Some (JStr (str "abc")) /\
  field (JObj [(str "type", JStr (str "p")); (str "text", JStr (str "abc"))])
        (str "type") = Some (JStr (str "p")) /\
  3 = strlen (str "abc") /\
  JArr [] = JArr [].
Proof.
  apply (proj2 (fromJSON_raises
                  (JObj [(str "type", JStr (str "p")); (str "text", JStr (str "abc"))]))
               (mkRevived (JStr (str "p")) (str "abc") 3 (JArr []))).
  reflexivity.
Defined.

(** C9 as stated fails: a payload whose [type] is [false] is refused,
    although its [text] is a string and its [type] is neither missing nor
    empty. *)
Lemma fromJSON_false_type_raises :
  ~ (fromJSON (JObj [(str "text", JStr (str "a")); (str "type", JBool false)]) = Thrown <->
     is_string (field (JObj [(str "text", JStr (str "a")); (str "type", JBool false)])
                      (str "text")) = false \/
     field (JObj [(str "text", JStr (str "a")); (str "type", JBool false)])
           (str "type") = None \/
     field (JObj [(str "text", JStr (str "a")); (str "type", JBool false)])
           (str "type") = Some (JStr [])).
Proof.
  intros [H _]. specialize (H eq_refl).
  vm_compute in H. destruct H as [H|[H|H]]; discriminate.
Qed.

(** * Further properties *)

(** ** addMarkup and addMarkups *)

Lemma addMarkups_fields l : forall s,
  addMarkups s l = set_markups s (insert_all l (markups s)).
Proof.
  induction l as [|m l IH]; intros s; simpl.
  - by destruct s.
  - unfold addMarkups in *. simpl. rewrite IH. by destruct s.
Qed.

(** X1. [addMarkup] adds the markup and nothing else: the new list holds
    the old markups and the new one, each as often as before, and type,
    text and length are untouched, whatever the order of the list. *)
Theorem addMarkup_adds_one s toAdd :
  markups (addMarkup s toAdd) ≡ₚ toAdd :: markups s /\
  s_type (addMarkup s toAdd) = s_type s /\
  text (addMarkup s toAdd) = text s /\
  s_length (addMarkup s toAdd) = s_length s.
Proof. split; [apply addMarkup_list_perm | done]. Qed.

(** X2. In a sorted list [addMarkup] puts the markup after every entry
    that is strictly below it in (type, start, end) and before every
    other entry, so before the entries with the same triple. *)
Theorem addMarkup_place s toAdd :
  sorted (markups s) ->
  exists below above,
    markups s = below ++ above /\
    markups (addMarkup s toAdd) = below ++ toAdd :: above /\
    Forall (fun m => key_lt m toAdd) below /\
    Forall (fun m => key_le toAdd m) above.
Proof. intros Hs. by apply addMarkup_list_split. Qed.

Lemma addMarkup_place_witness :
  exists below above,
    markups (two_links 1) = below ++ above /\
    markups (addMarkup (two_links 1) (mkMarkup 1 0 1 None)) =
      below ++ mkMarkup 1 0 1 None :: above /\
    Forall (fun m => key_lt m (mkMarkup 1 0 1 None)) below /\
    Forall (fun m => key_le (mkMarkup 1 0 1 None) m) above.
Proof. apply addMarkup_place. sorted_by_computation. Defined.

(** X3. The order of the calls does not matter when no two of the
    markups share (type, start, end): [addMarkups] with two arrays that
    hold the same markups gives the same serialization. *)
Theorem addMarkups_order_irrelevant s l1 l2 :
  sorted (markups s) ->
  l1 ≡ₚ l2 ->
  (forall x y, x ∈ markups s ++ l1 -> y ∈ markups s ++ l1 ->
               key_le x y -> key_le y x -> x = y) ->
  addMarkups s l1 = addMarkups s l2.
Proof.
  intros Hs Hp Hdistinct. rewrite !addMarkups_fields. f_equal.
  apply (Sorted_unique_strong key_le).
  - intros x y Hx Hy. rewrite insert_all_perm in Hx, Hy.
    rewrite <- Hp in Hy. by apply Hdistinct.
  - by apply insert_all_sorted.
  - by apply insert_all_sorted.
  - by rewrite !insert_all_perm, Hp.
Qed.

(** X4. On a serialization without markups, [addMarkups] with an array
    in strictly ascending (type, start, end) order stores the array as it
    is. *)
Theorem addMarkups_ascending s l :
  markups s = [] ->
  StronglySorted key_lt l ->
  markups (addMarkups s l) = l.
Proof.
  intros Hnil Hl. rewrite addMarkups_fields. simpl. rewrite Hnil.
  by apply insert_all_ascending.
Qed.

(** ** removeMarkup *)

(** The comparisons of the loop body, one case each, taken as they
    come up: only fields of markups are compared. *)
Ltac field_of z :=
  lazymatch z with
  | start ?x => is_var x
  | end_ ?x => is_var x
  | type ?x => is_var x
  end.

Ltac compare_fields :=
  match goal with
  | |- context [?a <? ?b] => field_of a; field_of b; destruct (Z.ltb_spec a b)
  | |- context [?a <=? ?b] => field_of a; field_of b; destruct (Z.leb_spec a b)
  | |- context [?a =? ?b] => field_of a; field_of b; destruct (Z.eqb_spec a b)
  end.

Ltac loop_cases :=
  cbv zeta; rewrite ?Z.gtb_ltb, ?Z.geb_leb;
  cbn [andb negb start end_ type href set_start set_end];
  repeat (compare_fields;
          cbn [andb negb start end_ type href set_start set_end]).

(** X5. [removeMarkup] leaves the markups of every other type as they
    are and in their order, and does not touch type, text or length. *)
Theorem removeMarkup_other_types s toRemove :
  List.filter (fun m => negb (type m =? type toRemove))
              (markups (removeMarkup s toRemove)) =
  List.filter (fun m => negb (type m =? type toRemove)) (markups s) /\
  s_type (removeMarkup s toRemove) = s_type s /\
  text (removeMarkup s toRemove) = text s /\
  s_length (removeMarkup s toRemove) = s_length s.
Proof.
  split; [|done]. simpl.
  induction (markups s) as [|m tl IH]; [done|].
  cbn [removeMarkup_from].
  rewrite Z.gtb_ltb. destruct (Z.ltb_spec (type toRemove) (type m)); [done|].
  destruct (Z.eqb_spec (type m) (type toRemove)) as [Heq|Hne]; cbn [negb].
  - assert (Hm : forall x, type x = type m ->
                   negb (type x =? type toRemove) = false).
    { intros x ->. by rewrite Heq, Z.eqb_refl. }
    cbn [List.filter]. rewrite (Hm m eq_refl).
    loop_cases; cbn [List.filter type]; rewrite ?Hm by reflexivity;
      done || exact IH.
  - cbn [List.filter]. by rewrite IH.
Qed.

Lemma covered_cons ty p m ms :
  covered ty p (m :: ms) <-> (type m = ty /\ covers m p) \/ covered ty p ms.
Proof. unfold covered. apply Exists_cons. Qed.

Lemma removeMarkup_from_outside toRemove ty p ms :
  start toRemove <= end_ toRemove ->
  ~ (start toRemove <= p < end_ toRemove) ->
  covered ty p (removeMarkup_from toRemove ms) <-> covered ty p ms.
Proof.
  intros Ht Hp. induction ms as [|m tl IH]; [done|].
  cbn [removeMarkup_from].
  rewrite Z.gtb_ltb. destruct (Z.ltb_spec (type toRemove) (type m)); [done|].
  destruct (Z.eqb_spec (type m) (type toRemove)) as [Heq|Hne]; cbn [negb].
  2:{ rewrite !covered_cons, IH. done. }
  loop_cases; rewrite ?covered_cons, ?IH; unfold covers;
    cbn [start end_ type set_start set_end]; intuition lia.
Qed.

(** X6. For a range with [start <= end], [removeMarkup] changes the
    styling inside the range only: a position outside it is covered by a
    markup of a given type afterwards exactly if it was before, for every
    list of markups and every type. *)
Theorem removeMarkup_outside_range s toRemove ty p :
  start toRemove <= end_ toRemove ->
  ~ (start toRemove <= p < end_ toRemove) ->
  covered ty p (markups (removeMarkup s toRemove)) <-> covered ty p (markups s).
Proof. intros Ht Hp. by apply removeMarkup_from_outside. Qed.

Lemma removeMarkup_outside_range_witness :
  covered 1 8 (markups (removeMarkup (nested 1) (mkMarkup 1 4 5 None))) <->
  covered 1 8 (markups (nested 1)).
Proof. apply removeMarkup_outside_range; simpl; lia. Defined.

(** X7. Where no two same-type markups overlap one another and the list
    is in the order of the types, no markup of the removed type overlaps
    the range after [removeMarkup]. *)
Theorem removeMarkup_clears_tidy s toRemove :
  StronglySorted disjoint_order (markups s) ->
  Forall (fun m => type m = type toRemove ->
                   ~ overlaps m (start toRemove) (end_ toRemove))
         (markups (removeMarkup s toRemove)).
Proof. intros Hs. by apply removeMarkup_clears_disjoint. Qed.

Lemma removeMarkup_clears_tidy_witness :
  Forall (fun m => type m = 1 -> ~ overlaps m 3 16)
         (markups (removeMarkup (bold_and_italic 1 1) (mkMarkup 1 3 16 None))).
Proof.
  apply (removeMarkup_clears_tidy (bold_and_italic 1 1) (mkMarkup 1 3 16 None)).
  simpl. apply SSorted_cons; [apply SSorted_cons; [apply SSorted_nil | by apply Forall_nil]|].
  apply Forall_cons; split; [|by apply Forall_nil].
  unfold disjoint_order. simpl. lia.
Defined.

Lemma removeMarkup_from_within toRemove ms :
  start toRemove <= end_ toRemove ->
  Forall (fun x => Exists (within x) ms) (removeMarkup_from toRemove ms).
Proof.
  intros Ht. induction ms as [|m tl IH]; [constructor|].
  assert (Hself : forall x, within x m -> Exists (within x) (m :: tl)).
  { intros x Hx. by apply Exists_cons_hd. }
  assert (Htl : forall l, Forall (fun x => Exists (within x) tl) l ->
                          Forall (fun x => Exists (within x) (m :: tl)) l).
  { intros l Hl. eapply Forall_impl; [exact Hl|].
    intros x Hx. by apply Exists_cons_tl. }
  assert (Hid : Forall (fun x => Exists (within x) tl) tl).
  { apply Forall_forall. intros x Hx. apply Exists_exists. exists x.
    split; [done|]. unfold within. lia. }
  cbn [removeMarkup_from].
  rewrite Z.gtb_ltb. destruct (Z.ltb_spec (type toRemove) (type m)).
  { constructor; [apply Hself; unfold within; lia | by apply Htl]. }
  destruct (Z.eqb_spec (type m) (type toRemove)) as [Heq|Hne]; cbn [negb].
  2:{ constructor; [apply Hself; unfold within; lia | by apply Htl]. }
  loop_cases;
    repeat (constructor;
            [apply Hself; unfold within; cbn [start end_ type set_start set_end]; lia|]);
    by apply Htl.
Qed.

Lemma removeMarkup_from_nonempty toRemove ms :
  Forall (fun m => start m < end_ m) ms ->
  Forall (fun m => start m < end_ m) (removeMarkup_from toRemove ms).
Proof.
  induction 1 as [|m tl Hm Htl IH]; [constructor|].
  cbn [removeMarkup_from].
  rewrite Z.gtb_ltb. destruct (Z.ltb_spec (type toRemove) (type m)).
  { by constructor. }
  destruct (Z.eqb_spec (type m) (type toRemove)) as [Heq|Hne]; cbn [negb].
  2:{ by constructor. }
  loop_cases; repeat (constructor; [cbn [start end_ type set_start set_end]; lia|]); done.
Qed.

Lemma disjoint_order_within m x y :
  disjoint_order m y -> within x y -> disjoint_order m x.
Proof. unfold disjoint_order, within. lia. Qed.

Lemma removeMarkup_from_disjoint toRemove ms :
  start toRemove <= end_ toRemove ->
  StronglySorted disjoint_order ms ->
  StronglySorted disjoint_order (removeMarkup_from toRemove ms).
Proof.
  intros Ht. induction 1 as [|m tl Hs IH Hm]; [constructor|].
  assert (Hrec : forall x, within x m ->
                   Forall (disjoint_order x) (removeMarkup_from toRemove tl)).
  { intros x Hx.
    pose proof (removeMarkup_from_within toRemove tl Ht) as Hw.
    rewrite Forall_forall in Hw, Hm |- *. intros z Hz.
    apply Hw, Exists_exists in Hz as (y & Hy & Hzy).
    specialize (Hm _ Hy). unfold disjoint_order, within in *. lia. }
  assert (Hkeep : forall x, within x m -> Forall (disjoint_order x) tl).
  { intros x Hx. eapply Forall_impl; [exact Hm|].
    intros y Hy. unfold disjoint_order, within in *. lia. }
  cbn [removeMarkup_from].
  rewrite Z.gtb_ltb. destruct (Z.ltb_spec (type toRemove) (type m)).
  { by constructor. }
  destruct (Z.eqb_spec (type m) (type toRemove)) as [Heq|Hne]; cbn [negb].
  2:{ constructor; [done|]. apply Hrec. unfold within. lia. }
  loop_cases; try exact IH; try exact Hs;
    repeat (apply SSorted_cons;
            [|first [ apply Hrec; unfold within; cbn [start end_ type set_start set_end]; lia
                    | apply Hkeep; unfold within; cbn [start end_ type set_start set_end]; lia
                    | apply List.Forall_cons;
                      [unfold disjoint_order; cbn [start end_ type set_start set_end]; lia|] ]]);
    try exact IH; try exact Hs;
    try (apply Hkeep; unfold within; cbn [start end_ type set_start set_end]; lia).
Qed.

Lemma tidy_sorted ms : tidy ms -> sorted ms.
Proof.
  intros [Hs Hne]. apply key_lt_sorted.
  induction Hs as [|m tl Hs IH Hm]; [constructor|].
  apply Forall_cons in Hne as [Hm1 Hne].
  constructor; [by apply IH|].
  eapply Forall_impl; [exact Hm|]. intros x Hx.
  unfold disjoint_order, key_lt in *. lia.
Qed.

(** X8. For a range with [start <= end], [removeMarkup] keeps a list in
    good order: if the list is in the order of the types, no markup is
    empty and no two same-type markups overlap, the same holds
    afterwards, and the list is still sorted by (type, start, end). *)
Theorem removeMarkup_keeps_tidy s toRemove :
  start toRemove <= end_ toRemove ->
  tidy (markups s) ->
  tidy (markups (removeMarkup s toRemove)) /\
  sorted (markups (removeMarkup s toRemove)).
Proof.
  intros Ht [Hs Hne].
  assert (Htidy : tidy (markups (removeMarkup s toRemove))).
  { split; simpl.
    - by apply removeMarkup_from_disjoint.
    - by apply removeMarkup_from_nonempty. }
  split; [exact Htidy | by apply tidy_sorted].
Qed.

Lemma removeMarkup_keeps_tidy_witness :
  tidy (markups (removeMarkup (bold_and_italic 1 1) (mkMarkup 1 6 16 None))) /\
  sorted (markups (removeMarkup (bold_and_italic 1 1) (mkMarkup 1 6 16 None))).
Proof.
  apply removeMarkup_keeps_tidy; [simpl; lia|].
  split; simpl.
  - apply SSorted_cons; [apply SSorted_cons; [apply SSorted_nil | by apply Forall_nil]|].
    apply Forall_cons; split; [|by apply Forall_nil].
    unfold disjoint_order. simpl. lia.
  - repeat (apply Forall_cons; split; [simpl; lia|]). by apply Forall_nil.
Defined.

(** Without [start <= end] the pieces of a split overlap. *)
Lemma removeMarkup_inverted_range :
  removeMarkup_from (mkMarkup 1 7 3 None) [mkMarkup 1 0 10 None] =
    [mkMarkup 1 0 7 None; mkMarkup 1 3 10 None].
Proof. reflexivity. Qed.

Lemma removeMarkup_from_untouched toRemove ms :
  start toRemove <= end_ toRemove ->
  Forall (fun m => type m = type toRemove ->
                   start m < end_ m /\
                   ~ overlaps m (start toRemove) (end_ toRemove)) ms ->
  removeMarkup_from toRemove ms = ms.
Proof.
  intros Ht. induction 1 as [|m tl Hm Htl IH]; [done|].
  cbn [removeMarkup_from].
  rewrite Z.gtb_ltb. destruct (Z.ltb_spec (type toRemove) (type m)); [done|].
  destruct (Z.eqb_spec (type m) (type toRemove)) as [Heq|Hne]; cbn [negb].
  2:{ by rewrite IH. }
  destruct (Hm Heq) as [Hne Hno]. unfold overlaps in Hno.
  loop_cases; rewrite ?IH; try lia; try done;
    destruct m as [mt mb me mh]; cbn [start end_ type href] in *;
    repeat f_equal; lia.
Qed.

(** X9. For a range with [start <= end], [removeMarkup] changes nothing
    when no markup of the type overlaps the range (the markups of the
    type not being empty). *)
Theorem removeMarkup_nothing_to_remove s toRemove :
  start toRemove <= end_ toRemove ->
  Forall (fun m => type m = type toRemove ->
                   start m < end_ m /\
                   ~ overlaps m (start toRemove) (end_ toRemove))
         (markups s) ->
  removeMarkup s toRemove = s.
Proof.
  intros Ht Hms. unfold removeMarkup.
  rewrite removeMarkup_from_untouched by done. by destruct s.
Qed.

Lemma removeMarkup_nothing_to_remove_witness :
  removeMarkup (bold_and_italic 1 1) (mkMarkup 1 9 14 None) = bold_and_italic 1 1.
Proof.
  apply removeMarkup_nothing_to_remove; [simpl; lia|].
  simpl. repeat (apply Forall_cons; split;
                 [intros _; unfold overlaps; simpl; lia|]).
  by apply Forall_nil.
Defined.

(** ** substr *)

Lemma substr_at_fields s from length :
  let len' := match length with
              | Some l => if from + l >? s_length s then s_length s - from else l
              | None => s_length s - from
              end in
  substr_at s from length =
    {| s_type := nodeName_toLowerCase (s_type s);
       text := js_substr (text s) from len';
       s_length := strlen (js_substr (text s) from len');
       markups := insert_all (map (rebase from (from + len'))
                                  (List.filter (intersects from (from + len'))
                                               (markups s))) [] |}.
Proof. intros len'. unfold substr_at. by rewrite substr_loop. Qed.

(** X10. Unless the length field is negative, [substr] returns for every
    start and length, and what it returns has the type of the receiver as
    the constructor gives it back (in lower case), a length equal to the
    length of its text, and markups sorted by (type, start, end), however
    the markups of the receiver were ordered. *)
Theorem substr_returns_sorted s from length :
  0 <= s_length s ->
  exists r,
    substr s from length = Some r /\
    s_type r = nodeName_toLowerCase (s_type s) /\
    s_length r = strlen (text r) /\
    sorted (markups r).
Proof.
  intros Hlen. unfold substr.
  destruct ((s_length s =? 0) || _) eqn:E.
  { eexists; split; [done|]. repeat split. apply Sorted_nil. }
  apply orb_false_iff in E as [E0%Z.eqb_neq _].
  destruct (wrap_start_result (s_length s) from) as (r0 & -> & _); [lia|].
  eexists; split; [done|]. rewrite substr_at_fields. simpl.
  repeat split. apply insert_all_sorted, Sorted_nil.
Qed.

Lemma rebase_clip from upto m :
  from < end_ m -> start m < upto -> rebase from upto m = clip from upto m.
Proof.
  intros H1 H2. unfold rebase, clip. rewrite Z.gtb_ltb.
  destruct (Z.ltb_spec from (start m)), (Z.ltb_spec (end_ m) upto); f_equal; lia.
Qed.

(** X11. A slice inside the text: for [0 <= start], [0 < length] and
    [start + length] within the text, [substr(start, length)] returns the
    [length] characters from [start] on, and exactly the markups that
    intersect [[start, start + length)], each cut to that range and
    counted from [start], with its type and [href]. *)
Theorem substr_slice s from len :
  s_length s = strlen (text s) ->
  0 <= from -> 0 < len -> from + len <= s_length s ->
  exists r,
    substr s from (Some len) = Some r /\
    text r = take (Z.to_nat len) (drop (Z.to_nat from) (text s)) /\
    s_length r = len /\
    markups r ≡ₚ map (clip from (from + len))
                    (List.filter (fun m => (start m <? from + len) &&
                                           (from <? end_ m)) (markups s)).
Proof.
  intros Hlen Hf Hl Hle. rewrite substr_nonneg by done.
  destruct (Z.eqb_spec (s_length s) 0) as [?|_]; [lia|].
  destruct (Z.leb_spec len 0) as [?|_]; [lia|]. cbn [orb].
  eexists; split; [done|]. rewrite substr_at_fields. cbn [text s_length markups].
  rewrite Z.gtb_ltb. destruct (Z.ltb_spec (s_length s) (from + len)) as [?|_]; [lia|].
  split; [|split].
  - unfold js_substr. by destruct (Z.ltb_spec from 0); [lia|].
  - apply strlen_js_substr; lia.
  - rewrite insert_all_perm. cbn [app].
    induction (markups s) as [|m ms IH]; [done|].
    cbn [List.filter]. unfold intersects at 1. rewrite Z.gtb_ltb.
    destruct ((start m <? from + len) && (from <? end_ m)) eqn:E; [|exact IH].
    apply andb_true_iff in E as [E1%Z.ltb_lt E2%Z.ltb_lt].
    cbn [map]. rewrite rebase_clip by done. by rewrite IH.
Qed.

(** X12. A start at or past the end of the text: when the markups lie
    within the text, [substr] returns the empty serialization the
    constructor makes for the receiver's type (its type in lower case, no
    text, no markups), whatever length is asked for. *)
Theorem substr_past_end s from length :
  s_length s = strlen (text s) ->
  Forall (in_range (s_length s)) (markups s) ->
  s_length s <= from ->
  substr s from length = Some (Serialize_new (s_type s)).
Proof.
  intros Hlen Hms Hfrom. pose proof (strlen_nonneg (text s)).
  rewrite substr_nonneg by lia.
  destruct ((s_length s =? 0) || _) eqn:E; [done|].
  apply orb_false_iff in E as [E0%Z.eqb_neq El].
  f_equal. rewrite substr_at_fields. cbv zeta.
  set (len' := match length with Some l => _ | None => _ end).
  assert (Hup : from + len' = s_length s).
  { subst len'. destruct length as [l|]; [|lia].
    apply Z.leb_gt in El. rewrite Z.gtb_ltb.
    destruct (Z.ltb_spec (s_length s) (from + l)); lia. }
  rewrite Hup.
  assert (Htext : js_substr (text s) from len' = []).
  { unfold js_substr. destruct (Z.ltb_spec from 0); [lia|].
    replace (Z.to_nat len') with 0%nat by lia. done. }
  rewrite Htext.
  assert (Hnone : List.filter (intersects from (s_length s)) (markups s) = []).
  { clear -Hms Hfrom. induction Hms as [|m ms Hm _ IH]; [done|].
    cbn [List.filter]. unfold intersects at 1. rewrite Z.gtb_ltb.
    destruct (Z.ltb_spec from (end_ m)); [unfold in_range in Hm; lia|].
    by rewrite andb_false_r. }
  by rewrite Hnone.
Qed.

(** X13. A negative start counts from the end: for [0 < n <= length],
    [substr(-n)] returns the last [n] characters of the text. *)
Theorem substr_last s n :
  s_length s = strlen (text s) ->
  0 < n <= s_length s ->
  exists r,
    substr s (- n) None = Some r /\
    text r = drop (Z.to_nat (s_length s - n)) (text s) /\
    s_length r = n.
Proof.
  intros Hlen Hn. unfold substr.
  destruct (Z.eqb_spec (s_length s) 0) as [?|_]; [lia|]. cbn [orb].
  destruct (Z.to_nat (- - n)) as [|fuel] eqn:Ef; [lia|].
  cbn [wrap_start]. destruct (Z.ltb_spec (- n) 0) as [_|?]; [|lia].
  rewrite wrap_start_nonneg by lia.
  eexists; split; [done|]. rewrite substr_at_fields. cbn [text s_length].
  assert (Ht : js_substr (text s) (s_length s + - n)
                 (s_length s - (s_length s + - n)) =
               drop (Z.to_nat (s_length s - n)) (text s)).
  { unfold js_substr. destruct (Z.ltb_spec (s_length s + - n) 0); [lia|].
    replace (s_length s + - n) with (s_length s - n) by lia.
    apply take_ge. rewrite length_drop. unfold strlen in Hlen. lia. }
  rewrite Ht. split; [done|].
  unfold strlen in *. rewrite length_drop. lia.
Qed.

Lemma js_substr_from t from len :
  0 <= from -> js_substr t from len = take (Z.to_nat len) (drop (Z.to_nat from) t).
Proof. intros H. unfold js_substr. by destruct (Z.ltb_spec from 0); [lia|]. Qed.

(** X14. Splitting loses no text: for [0 <= k <= length] the texts of
    [substr(0, k)] and [substr(k)] are the first [k] characters and the
    rest, and together they are the text. *)
Theorem substr_split_text s k :
  s_length s = strlen (text s) ->
  0 <= k <= s_length s ->
  exists l r,
    substr s 0 (Some k) = Some l /\
    substr s k None = Some r /\
    text l = take (Z.to_nat k) (text s) /\
    text r = drop (Z.to_nat k) (text s) /\
    s_length l = k /\
    s_length r = s_length s - k /\
    text l ++ text r = text s.
Proof.
  intros Hlen Hk.
  assert (Hl : exists l, substr s 0 (Some k) = Some l /\
                         text l = take (Z.to_nat k) (text s) /\
                         s_length l = strlen (text l)).
  { rewrite substr_nonneg by lia.
    destruct ((s_length s =? 0) || (k <=? 0)) eqn:E.
    - eexists; split; [done|]. cbn [text s_length]. split; [|done].
      apply orb_true_iff in E as [E%Z.eqb_eq|E%Z.leb_le].
      + rewrite E in Hlen. symmetry in Hlen.
        by rewrite (strlen_zero _ Hlen), take_nil.
      + by replace (Z.to_nat k) with 0%nat by lia.
    - apply orb_false_iff in E as [_ E%Z.leb_gt].
      eexists; split; [done|]. rewrite substr_at_fields. cbn [text s_length].
      split; [|done]. rewrite Z.add_0_l, Z.gtb_ltb.
      destruct (Z.ltb_spec (s_length s) k); [lia|].
      by rewrite js_substr_from. }
  assert (Hr : exists r, substr s k None = Some r /\
                         text r = drop (Z.to_nat k) (text s) /\
                         s_length r = strlen (text r)).
  { rewrite substr_nonneg by lia. rewrite orb_false_r.
    destruct (Z.eqb_spec (s_length s) 0) as [E|E].
    - eexists; split; [done|]. cbn [text s_length]. split; [|done].
      rewrite E in Hlen. symmetry in Hlen. by rewrite (strlen_zero _ Hlen), drop_nil.
    - eexists; split; [done|]. rewrite substr_at_fields. cbn [text s_length].
      split; [|done]. rewrite js_substr_from by lia.
      apply take_ge. rewrite length_drop. unfold strlen in Hlen. lia. }
  destruct Hl as (l & El & Hlt & Hll), Hr as (r & Er & Hrt & Hrl).
  exists l, r. rewrite Hll, Hrl, Hlt, Hrt. unfold strlen in *.
  rewrite length_take, length_drop, take_drop.
  repeat split; try done; lia.
Qed.

(** ** substring *)

Lemma substr_text s from l :
  s_length s = strlen (text s) ->
  0 <= from ->
  exists r,
    substr s from (Some l) = Some r /\
    s_type r = nodeName_toLowerCase (s_type s) /\
    s_length r = strlen (text r) /\
    text r = take (Z.to_nat l) (drop (Z.to_nat from) (text s)).
Proof.
  intros Hlen Hf. rewrite substr_nonneg by done.
  destruct ((s_length s =? 0) || (l <=? 0)) eqn:E.
  - eexists; split; [done|]. cbn [text s_length s_type]. repeat split.
    apply orb_true_iff in E as [E%Z.eqb_eq|E%Z.leb_le].
    + rewrite E in Hlen. symmetry in Hlen.
      by rewrite (strlen_zero _ Hlen), drop_nil, take_nil.
    + by replace (Z.to_nat l) with 0%nat by lia.
  - apply orb_false_iff in E as [_ E%Z.leb_gt].
    eexists; split; [done|]. rewrite substr_at_fields. cbn [text s_length s_type].
    repeat split. rewrite js_substr_from by done. rewrite Z.gtb_ltb.
    destruct (Z.ltb_spec (s_length s) (from + l)); [|done].
    unfold strlen in Hlen.
    rewrite !take_ge; [done | rewrite length_drop; lia..].
Qed.

(** X15. [substring] takes its two bounds in either order, takes a
    negative bound for 0, and returns for all arguments, also where
    [substr] would not. *)
Theorem substring_arguments s a b :
  substring s a (Some b) = substring s b (Some a) /\
  substring s a (Some b) = substring s (Z.max 0 a) (Some (Z.max 0 b)) /\
  (forall upto, exists r, substring s a upto = Some r).
Proof.
  split; [|split].
  - unfold substring.
    destruct (Z.ltb_spec b a), (Z.ltb_spec a b); try lia; try done.
    by replace b with a by lia.
  - unfold substring.
    destruct (Z.ltb_spec b a), (Z.ltb_spec (Z.max 0 b) (Z.max 0 a));
      destruct (Z.ltb_spec a 0), (Z.ltb_spec b 0),
               (Z.ltb_spec (Z.max 0 a) 0), (Z.ltb_spec (Z.max 0 b) 0);
      try lia; (f_equal; [lia | f_equal; lia]).
  - intros upto. unfold substring.
    destruct upto as [e|]; [destruct (Z.ltb_spec e a)|];
      rewrite substr_nonneg by (repeat case_match; lia);
      destruct (_ || _); eauto.
Qed.

(** X16. The text of a [substring]: with the text as long as the length
    says, [substring(a, b)] returns the characters from
    [max(0, min(a, b))] up to [max(0, max(a, b))], as far as the text
    goes, and [substring(a)] those from [max(0, a)] on, in a
    serialization whose type is the receiver's as the constructor gives
    it back (in lower case). *)
Theorem substring_text s a b :
  s_length s = strlen (text s) ->
  (exists r,
      substring s a (Some b) = Some r /\
      s_type r = nodeName_toLowerCase (s_type s) /\
      text r = take (Z.to_nat (Z.max 0 (Z.max a b) - Z.max 0 (Z.min a b)))
                    (drop (Z.to_nat (Z.max 0 (Z.min a b))) (text s))) /\
  (exists r,
      substring s a None = Some r /\
      s_type r = nodeName_toLowerCase (s_type s) /\
      text r = drop (Z.to_nat (Z.max 0 a)) (text s)).
Proof.
  intros Hlen. split.
  - assert (E : substring s a (Some b) =
                substr s (Z.max 0 (Z.min a b))
                       (Some (Z.max 0 (Z.max a b) - Z.max 0 (Z.min a b)))).
    { unfold substring.
      destruct (Z.ltb_spec b a); destruct (Z.ltb_spec a 0), (Z.ltb_spec b 0);
        try lia; (f_equal; [lia | f_equal; lia]). }
    rewrite E.
    destruct (substr_text s (Z.max 0 (Z.min a b))
                (Z.max 0 (Z.max a b) - Z.max 0 (Z.min a b)) Hlen)
      as (r & Hr & Ht & _ & Hx); [lia|].
    by exists r.
  - assert (E : substring s a None =
                substr s (Z.max 0 a) (Some (s_length s - Z.max 0 a))).
    { unfold substring. destruct (Z.ltb_spec a 0); (f_equal; [lia | f_equal; lia]). }
    rewrite E.
    destruct (substr_text s (Z.max 0 a) (s_length s - Z.max 0 a) Hlen)
      as (r & Hr & Ht & _ & Hx); [lia|].
    exists r. repeat split; [done..|]. rewrite Hx.
    apply take_ge. rewrite length_drop. unfold strlen in Hlen. lia.
Qed.

(** ** equals *)

Lemma jsstring_eqb_eq a b : jsstring_eqb a b = true <-> a = b.
Proof. unfold jsstring_eqb. apply bool_decide_eq_true. Qed.

Lemma same_keys_same_markup m o :
  List.length (Object_keys m) = List.length (Object_keys o) ->
  forallb (fun k => strict_eqb (get m k) (get o k)) (Object_keys m) = true ->
  m = o.
Proof.
  destruct m as [t1 b1 e1 h1], o as [t2 b2 e2 h2].
  unfold Object_keys. cbn [href].
  destruct h1 as [h1|], h2 as [h2|]; cbn; try discriminate; intros _;
    rewrite ?andb_true_iff, ?Z.eqb_eq, ?jsstring_eqb_eq;
    intros H; f_equal; intuition congruence.
Qed.

Lemma equal_markups_eq ms : forall os,
  List.length ms = List.length os -> equal_markups ms os = true -> ms = os.
Proof.
  induction ms as [|m ms IH]; intros [|o os] Hl; try discriminate; [done|].
  cbn [equal_markups].
  destruct (Nat.eqb_spec (List.length (Object_keys m)) (List.length (Object_keys o)))
    as [Hk|]; cbn [negb]; [|discriminate].
  destruct (forallb _ _) eqn:Hv; cbn [negb]; [|discriminate].
  intros H. rewrite (same_keys_same_markup m o Hk Hv). f_equal.
  apply IH; [by injection Hl | done].
Qed.

(** X17. [equals] holds exactly if the two serializations have the same
    type, the same text and the same markups in the same order, with the
    same [href] where there is one; the length field is not looked at. *)
Theorem equals_iff s other :
  equals s other = true <->
  s_type s = s_type other /\ text s = text other /\ markups s = markups other.
Proof.
  unfold equals. split.
  - destruct (jsstring_eqb (s_type s) (s_type other)) eqn:E1; cbn [negb orb];
      [|discriminate].
    destruct (jsstring_eqb (text s) (text other)) eqn:E2; cbn [negb orb];
      [|discriminate].
    destruct (Nat.eqb_spec (List.length (markups s)) (List.length (markups other)));
      cbn [negb]; [|discriminate].
    intros H. apply jsstring_eqb_eq in E1, E2.
    repeat split; [done..|]. by apply equal_markups_eq.
  - intros (-> & -> & ->).
    rewrite !(proj2 (jsstring_eqb_eq _ _) eq_refl), Nat.eqb_refl. cbn [negb orb].
    apply equal_markups_refl.
Qed.

(** ** append *)

(** X18. [append] is concatenation on the text: with the text as long as
    the length says, [append] returns for a missing argument, a string or
    a serialization alike, and the result has the type of the receiver
    as the constructor gives it back (in lower case; the type of the
    argument plays no part), the receiver's text followed by the added
    text, and a length equal to the length of that text. *)
Theorem append_text s toAdd :
  s_length s = strlen (text s) ->
  exists r,
    append s toAdd = Some r /\
    s_type r = nodeName_toLowerCase (s_type s) /\
    text r = text s ++ text_of toAdd /\
    s_length r = strlen (text r).
Proof.
  intros Hlen.
  assert (Hcopy : exists c, substr s 0 None = Some c /\
                            s_type c = nodeName_toLowerCase (s_type s) /\
                            text c = text s /\ s_length c = strlen (text c)).
  { rewrite substr_nonneg by lia. rewrite orb_false_r.
    destruct (Z.eqb_spec (s_length s) 0) as [E|E].
    - eexists; split; [done|]. cbn [text s_length s_type]. repeat split.
      rewrite E in Hlen. symmetry in Hlen. by rewrite (strlen_zero _ Hlen).
    - eexists; split; [done|]. rewrite substr_at_fields. cbn [text s_length s_type].
      repeat split. by rewrite Hlen, js_substr_whole. }
  destruct Hcopy as (c & Hc & Hct & Hcx & Hcl).
  destruct toAdd as [|[|ch t]|other]; cbn [append text_of].
  - exists c. by rewrite app_nil_r.
  - exists c. by rewrite app_nil_r.
  - rewrite Hc. eexists; split; [done|]. cbn [text s_length s_type set_text set_markups].
    by rewrite Hct, Hcx.
  - eexists; split; [done|]. rewrite !insert_loop.
    by cbn [text s_length s_type set_text set_markups mergeAdjacent Serialize_new].
Qed.

(** X19. [append] without an argument, or with the empty string, returns
    a copy: for a serialization whose type is a name the constructor
    gives back as it is (a lower-case element name), whose length is that
    of its text and whose markups lie within the text in strictly
    ascending (type, start, end) order, the result is equal to the
    receiver. *)
Theorem append_nothing s :
  nodeName_toLowerCase (s_type s) = s_type s ->
  s_length s = strlen (text s) ->
  Forall (in_range (s_length s)) (markups s) ->
  StronglySorted key_lt (markups s) ->
  append s Absent = Some s /\ append s (Str []) = Some s.
Proof.
  intros Hty Hlen Hms Hs. cbn [append].
  rewrite substr_whole by done. rewrite insert_all_ascending, Hty by done.
  by destruct s.
Qed.

(** ** fromText *)

Lemma ascii_lower_twice c : ascii_lower (ascii_lower c) = ascii_lower c.
Proof.
  unfold ascii_lower.
  destruct ((65 <=? c) && (c <=? 90))%N eqn:E; [|by rewrite E].
  apply andb_true_iff in E as [E1%N.leb_le E2%N.leb_le].
  destruct (N.leb_spec 65 (c + 32)), (N.leb_spec (c + 32) 90); cbn [andb];
    done || lia.
Qed.

Lemma ascii_lower_ascii c : is_ascii c = true -> is_ascii (ascii_lower c) = true.
Proof.
  unfold is_ascii, ascii_lower. rewrite !N.ltb_lt.
  destruct ((65 <=? c) && (c <=? 90))%N eqn:E; [|done].
  apply andb_true_iff in E as [E1%N.leb_le E2%N.leb_le]. lia.
Qed.

(** Lower-casing an ASCII name a second time changes nothing. *)
Lemma nodeName_toLowerCase_twice tag :
  forallb is_ascii tag = true ->
  nodeName_toLowerCase (nodeName_toLowerCase tag) = nodeName_toLowerCase tag.
Proof.
  intros H. unfold nodeName_toLowerCase. rewrite H.
  assert (H' : forallb is_ascii (map ascii_lower tag) = true).
  { rewrite forallb_forall in H |- *. intros c (c0 & <- & Hc)%in_map_iff.
    by apply ascii_lower_ascii, H. }
  rewrite H'. rewrite map_map. apply map_ext. intros c. apply ascii_lower_twice.
Qed.

(** X20. Plain text behaves like a string: for a tag of ASCII characters,
    or none, appending a string to [fromText(a, tag)] gives
    [fromText(a + b, tag)], for every text and every string (the empty
    ones too); the type of both is the tag in lower case, and where
    [createElement] refuses the tag, both calls of [fromText] throw. *)
Theorem fromText_append a b tag :
  forallb is_ascii (tag_or_p tag) = true ->
  match fromText a tag with
  | Some s => append s (Str b)
  | None => None
  end = fromText (a ++ b) tag /\
  (forall s, fromText a tag = Some s ->
             s_type s = map ascii_lower (tag_or_p tag)).
Proof.
  intros Hascii. unfold fromText.
  destruct (element_name (tag_or_p tag)); [|done].
  split.
  2:{ intros s [= <-]. cbn [s_type set_text Serialize_new].
      unfold nodeName_toLowerCase. by rewrite Hascii. }
  set (s := set_text (Serialize_new (tag_or_p tag)) a).
  assert (Hlen : s_length s = strlen (text s)) by done.
  assert (Hms : Forall (in_range (s_length s)) (markups s)) by constructor.
  assert (Hty : nodeName_toLowerCase (s_type s) = s_type s).
  { by apply nodeName_toLowerCase_twice. }
  destruct b as [|c b].
  - cbn [append]. rewrite substr_whole by done. rewrite Hty. by rewrite app_nil_r.
  - rewrite append_string_reinserted by done. rewrite Hty.
    unfold s, set_text. cbn [text s_length s_type markups Serialize_new].
    by rewrite strlen_app.
Qed.

End DOM.

(** * The examples that go through the browser *)

(** The same tactics, for the lists written out below. *)
Ltac sorted_by_computation :=
  unfold sorted; simpl;
  repeat (apply Sorted_cons || apply Sorted_nil || apply HdRel_cons || apply HdRel_nil);
  try (apply key_leb_le; reflexivity).

Ltac in_range_by_computation :=
  simpl;
  repeat (apply Forall_cons; split; [unfold in_range; simpl; lia|]);
  by apply Forall_nil.

Ltac ascending_pair :=
  simpl; apply SSorted_cons;
  [apply SSorted_cons; [apply SSorted_nil | by apply Forall_nil]|];
  apply Forall_cons; split; [|by apply Forall_nil]; unfold key_lt; simpl; lia.

(** Witness of C2. *)
Lemma addMarkup_keeps_sorted_witness :
  Forall (fun s' => sorted (markups s'))
         (addMarkup_trace (Serialize_new no_other_names (str "p"))
            [mkMarkup 2 0 1 None; mkMarkup 1 1 2 None; mkMarkup 1 0 2 None]) /\
  sorted (markups (addMarkups (Serialize_new no_other_names (str "p"))
            [mkMarkup 2 0 1 None; mkMarkup 1 1 2 None; mkMarkup 1 0 2 None])).
Proof. apply addMarkup_keeps_sorted. simpl. apply Sorted_nil. Defined.

(** Witness of X3. *)
Lemma addMarkups_order_irrelevant_witness :
  addMarkups (Serialize_new no_other_names (str "p"))
             [mkMarkup 2 0 1 None; mkMarkup 1 1 2 None; mkMarkup 1 0 2 None] =
  addMarkups (Serialize_new no_other_names (str "p"))
             [mkMarkup 1 0 2 None; mkMarkup 2 0 1 None; mkMarkup 1 1 2 None].
Proof.
  apply addMarkups_order_irrelevant.
  - apply Sorted_nil.
  - symmetry. apply (Permutation_cons_append [_; _]).
  - simpl. intros x y Hx Hy Hxy Hyx.
    repeat (apply elem_of_cons in Hx as [->|Hx]);
      repeat (apply elem_of_cons in Hy as [->|Hy]);
      try reflexivity;
      try (by apply elem_of_nil in Hx); try (by apply elem_of_nil in Hy);
      unfold key_le in Hxy, Hyx; simpl in Hxy, Hyx; lia.
Defined.

(** Witness of X4. *)
Lemma addMarkups_ascending_witness :
  markups (addMarkups (Serialize_new no_other_names (str "p"))
                      [mkMarkup 1 1 2 None; mkMarkup 2 0 1 None]) =
    [mkMarkup 1 1 2 None; mkMarkup 2 0 1 None].
Proof.
  apply addMarkups_ascending; [reflexivity|].
  apply SSorted_cons; [apply SSorted_cons; [apply SSorted_nil | by apply Forall_nil]|].
  apply Forall_cons; split; [|by apply Forall_nil]. unfold key_lt. simpl. lia.
Defined.

(** Witness of C3. *)
Lemma split_and_rejoin_merged_witness :
  split_and_rejoin no_other_names (bold_and_italic 1 2) 7 = Some true.
Proof.
  apply split_and_rejoin_merged.
  - reflexivity.
  - reflexivity.
  - in_range_by_computation.
  - sorted_by_computation.
  - reflexivity.
  - simpl. lia.
Defined.

(** C3 as stated fails: two bold markups that touch are merged into one
    by [append], and [equals] returns false. *)
Lemma split_and_rejoin_touching :
  split_and_rejoin no_other_names (touching 1) 2 = Some false.
Proof. reflexivity. Qed.

(** It fails as well where the type is not in lower case: the result has
    the type "h1", and [equals] returns false at its first test. *)
Lemma split_and_rejoin_heading :
  split_and_rejoin no_other_names heading 1 = Some false.
Proof. reflexivity. Qed.

(** Witness of C5: two rounds from -13 on a text of 10 characters, and
    scenario 4. *)
Lemma substr_negative_start_witness :
  (exists n : nat,
      (forall j : nat, (j < n)%nat -> -13 + Z.of_nat j * s_length (one_two 1) < 0) /\
      0 <= -13 + Z.of_nat n * s_length (one_two 1) < s_length (one_two 1) /\
      substr no_other_names (one_two 1) (-13) None =
        Some (substr_at no_other_names (one_two 1)
                (Z.max 0 (-13 + Z.of_nat n * s_length (one_two 1))) None) /\
      substr no_other_names (one_two 1) (-13) None =
        substr no_other_names (one_two 1)
               (-13 + Z.of_nat n * s_length (one_two 1)) None /\
      (s_length (one_two 1) = strlen (text (one_two 1)) ->
       exists r, substr no_other_names (one_two 1) (-13) None = Some r /\
                 text r = drop (Z.to_nat (-13 + Z.of_nat n * s_length (one_two 1)))
                               (text (one_two 1)))) /\
  (substr no_other_names (one_two 1) (-3) (Some 2) =
     substr no_other_names (one_two 1) 7 (Some 2) /\
   (0 < 2 ->
    substr no_other_names (one_two 1) (-3) (Some 2) =
      Some (substr_at no_other_names (one_two 1) 7 (Some 2))) /\
   (s_length (one_two 1) = strlen (text (one_two 1)) ->
    exists r, substr no_other_names (one_two 1) (-3) None = Some r /\
              substr no_other_names (one_two 1) 7 None = Some r /\
              text r = drop 7 (text (one_two 1)) /\ s_length r = 3)).
Proof.
  split.
  - apply (proj1 (substr_negative_start no_other_names)); simpl; lia.
  - apply (proj2 (substr_negative_start no_other_names) (one_two 1) (Some 2)).
    reflexivity.
Defined.

(** What scenario 4 returns. *)
Lemma substr_minus_three :
  substr no_other_names (one_two 1) (-3) None =
    Some {| s_type := str "p"; text := str "two"; s_length := 3;
            markups := [mkMarkup 1 0 3 None] |}.
Proof. reflexivity. Qed.

(** Witness of C10. *)
Lemma substr_markups_in_range_witness :
  exists r,
    substr no_other_names (bold_and_italic 1 2) (-18) (Some 10) = Some r /\
    Forall (in_range (s_length r)) (markups r) /\
    s_length r = strlen (text r).
Proof.
  apply substr_markups_in_range; [reflexivity | in_range_by_computation].
Defined.

(** Witness of C6. *)
Lemma append_string_in_order_witness :
  append no_other_names (bold_and_italic 1 2) (Str (str "!")) =
    Some {| s_type := s_type (bold_and_italic 1 2);
            text := text (bold_and_italic 1 2) ++ str "!";
            s_length := s_length (bold_and_italic 1 2) + strlen (str "!");
            markups := map (extend (s_length (bold_and_italic 1 2))
                                   (s_length (bold_and_italic 1 2) + strlen (str "!")))
                           (markups (bold_and_italic 1 2)) |} /\
  append no_other_names (one_and_two 1 2) (Str (str "345")) =
    Some {| s_type := str "p"; text := str "12345"; s_length := 5;
            markups := [mkMarkup 1 1 5 None; mkMarkup 2 0 1 None] |}.
Proof.
  split.
  - apply (proj1 (append_string_in_order no_other_names)).
    + discriminate.
    + reflexivity.
    + reflexivity.
    + in_range_by_computation.
    + ascending_pair.
  - apply (proj2 (append_string_in_order no_other_names) 1 2). lia.
Defined.

(** C6 as stated fails.  Two links over the same range come back in the
    other order, [substr(0)] having re-inserted them with [addMarkup];
    and a markup that runs past the end of the text, whose end is not the
    old length, does not come back unchanged. *)
Lemma append_string_not_a_copy :
  append no_other_names (two_links 1) (Str (str "c")) <>
    Some {| s_type := s_type (two_links 1);
            text := text (two_links 1) ++ str "c";
            s_length := 3;
            markups := map (extend (s_length (two_links 1)) 3)
                           (markups (two_links 1)) |} /\
  append no_other_names (overlong 1) (Str (str "345")) <>
    Some {| s_type := s_type (overlong 1);
            text := text (overlong 1) ++ str "345";
            s_length := 5;
            markups := map (extend (s_length (overlong 1)) 5)
                           (markups (overlong 1)) |}.
Proof. split; vm_compute; discriminate. Qed.

(** What the code returns in the two cases: the links swapped, and the
    long markup cut to the text by [substr(0)] and then extended like one
    that ended there; and with the type "H1" the copy has the type "h1". *)
Lemma append_string_swaps_links :
  append no_other_names (two_links 1) (Str (str "c")) =
    Some {| s_type := str "p"; text := str "abc"; s_length := 3;
            markups := [mkMarkup 1 0 1 (Some (str "b"));
                        mkMarkup 1 0 1 (Some (str "a"))] |}.
Proof. reflexivity. Qed.

Lemma append_string_clamps :
  append no_other_names (overlong 1) (Str (str "345")) =
    Some {| s_type := str "p"; text := str "12345"; s_length := 5;
            markups := [mkMarkup 1 1 5 None] |}.
Proof. reflexivity. Qed.

Lemma append_string_heading :
  append no_other_names heading (Str (str "c")) =
    Some {| s_type := str "h1"; text := str "abc"; s_length := 3; markups := [] |}.
Proof. reflexivity. Qed.

(** Witness of X10. *)
Lemma substr_returns_sorted_witness :
  exists r,
    substr no_other_names (two_links 1) (-1) None = Some r /\
    s_type r = nodeName_toLowerCase no_other_names (s_type (two_links 1)) /\
    s_length r = strlen (text r) /\
    sorted (markups r).
Proof. apply substr_returns_sorted. simpl. lia. Defined.

(** Witness of X11. *)
Lemma substr_slice_witness :
  exists r,
    substr no_other_names (bold_and_italic 1 2) 7 (Some 10) = Some r /\
    text r = take (Z.to_nat 10) (drop (Z.to_nat 7) (text (bold_and_italic 1 2))) /\
    s_length r = 10 /\
    markups r ≡ₚ map (clip 7 (7 + 10))
                    (List.filter (fun m => (start m <? 7 + 10) && (7 <? end_ m))
                                 (markups (bold_and_italic 1 2))).
Proof. apply substr_slice; [reflexivity | lia | lia | simpl; lia]. Defined.

(** Witness of X12. *)
Lemma substr_past_end_witness :
  substr no_other_names (bold_and_italic 1 2) 25 None =
    Some (Serialize_new no_other_names (s_type (bold_and_italic 1 2))).
Proof.
  apply substr_past_end; [reflexivity | in_range_by_computation | simpl; lia].
Defined.

(** Witness of X13. *)
Lemma substr_last_witness :
  exists r,
    substr no_other_names (one_two 1) (- 3) None = Some r /\
    text r = drop (Z.to_nat (s_length (one_two 1) - 3)) (text (one_two 1)) /\
    s_length r = 3.
Proof.
  apply (substr_last no_other_names (one_two 1) 3); [reflexivity | simpl; lia].
Defined.

(** Witness of X14. *)
Lemma substr_split_text_witness :
  exists l r,
    substr no_other_names (one_two 1) 0 (Some 4) = Some l /\
    substr no_other_names (one_two 1) 4 None = Some r /\
    text l = take (Z.to_nat 4) (text (one_two 1)) /\
    text r = drop (Z.to_nat 4) (text (one_two 1)) /\
    s_length l = 4 /\
    s_length r = s_length (one_two 1) - 4 /\
    text l ++ text r = text (one_two 1).
Proof. apply substr_split_text; [reflexivity | simpl; lia]. Defined.

(** Witness of X16, on a serialization with the type "H1". *)
Lemma substring_text_witness :
  (exists r,
      substring no_other_names heading 1 (Some (-2)) = Some r /\
      s_type r = nodeName_toLowerCase no_other_names (s_type heading) /\
      text r = take (Z.to_nat (Z.max 0 (Z.max 1 (-2)) - Z.max 0 (Z.min 1 (-2))))
                    (drop (Z.to_nat (Z.max 0 (Z.min 1 (-2)))) (text heading))) /\
  (exists r,
      substring no_other_names heading 1 None = Some r /\
      s_type r = nodeName_toLowerCase no_other_names (s_type heading) /\
      text r = drop (Z.to_nat (Z.max 0 1)) (text heading)).
Proof. apply substring_text. reflexivity. Defined.

(** Witness of X18, on a serialization with the type "H1". *)
Lemma append_text_witness :
  exists r,
    append no_other_names heading (Ser (two_links 2)) = Some r /\
    s_type r = nodeName_toLowerCase no_other_names (s_type heading) /\
    text r = text heading ++ text_of (Ser (two_links 2)) /\
    s_length r = strlen (text r).
Proof. apply append_text. reflexivity. Defined.

(** Witness of X19. *)
Lemma append_nothing_witness :
  append no_other_names (bold_and_italic 1 2) Absent = Some (bold_and_italic 1 2) /\
  append no_other_names (bold_and_italic 1 2) (Str []) = Some (bold_and_italic 1 2).
Proof.
  apply append_nothing;
    [reflexivity | reflexivity | in_range_by_computation | ascending_pair].
Defined.

(** Witness of X20: the tag "DIV" gives the type "div". *)
Lemma fromText_append_witness :
  match fromText no_other_names begins_with_letter (str "ab") (Some (str "DIV")) with
  | Some s => append no_other_names s (Str (str "c"))
  | None => None
  end = fromText no_other_names begins_with_letter (str "ab" ++ str "c")
                 (Some (str "DIV")) /\
  (forall s,
      fromText no_other_names begins_with_letter (str "ab") (Some (str "DIV")) = Some s ->
      s_type s = map ascii_lower (tag_or_p (Some (str "DIV")))).
Proof. apply fromText_append. reflexivity. Defined.

Lemma fromText_lower_case :
  fromText no_other_names begins_with_letter (str "ab") (Some (str "DIV")) =
    Some {| s_type := str "div"; text := str "ab"; s_length := 2; markups := [] |}.
Proof. reflexivity. Qed.
